(** * Chess-AI engine: material evaluation and alpha-beta search

    A shallow embedding of the two engine files of the repository (the
    depth-parameterised engine that also exports [getRandomMove], and the
    fixed-depth engine with the tenfold value table) and the properties of
    them that the specification states.

    The rules library ([chess.js]) is not part of the repository; it is taken
    as an interface ([Chess]) whose laws are section hypotheses. *)

From Stdlib Require Import ZArith QArith Qround List String Bool Lia Permutation.
Import ListNotations.
Local Open Scope string_scope.
Local Open Scope list_scope.
Local Open Scope Z_scope.

(** ** JavaScript numbers, as far as the engine uses them

    Scores are sums of at most 64 table entries, so every finite value that
    occurs is an integer far below 2^53 and [Z] represents it exactly.  The
    sentinels [Infinity] and [-Infinity] and the value [NaN] are kept, with the
    behaviour JavaScript gives them.  [-0] is identified with [0]: no operator
    used by the engine tells them apart. *)
Module JS.

Inductive number : Type :=
| Num (z : Z)
| PInf
| NInf
| NaN.

(** [a + b] *)
Definition add (a b : number) : number :=
  match a, b with
  | NaN, _ | _, NaN => NaN
  | Num x, Num y => Num (x + y)
  | PInf, NInf | NInf, PInf => NaN
  | PInf, _ | _, PInf => PInf
  | NInf, _ | _, NInf => NInf
  end.

(** [-a] *)
Definition neg (a : number) : number :=
  match a with
  | Num x => Num (- x)
  | PInf => NInf
  | NInf => PInf
  | NaN => NaN
  end.

(** [a <= b]; false as soon as one side is [NaN]. *)
Definition le (a b : number) : bool :=
  match a, b with
  | NaN, _ | _, NaN => false
  | NInf, _ => true
  | _, PInf => true
  | Num x, Num y => x <=? y
  | _, _ => false
  end.

(** [a < b] *)
Definition lt (a b : number) : bool :=
  match a, b with
  | NaN, _ | _, NaN => false
  | NInf, NInf => false
  | PInf, PInf => false
  | NInf, _ => true
  | _, PInf => true
  | Num x, Num y => x <? y
  | _, _ => false
  end.

(** [a > b] *)
Definition gt (a b : number) : bool := lt b a.

(** [Math.max(a, b)]: [NaN] if either argument is. *)
Definition Math_max (a b : number) : number :=
  match a, b with
  | NaN, _ | _, NaN => NaN
  | _, _ => if le a b then b else a
  end.

(** [Math.min(a, b)] *)
Definition Math_min (a b : number) : number :=
  match a, b with
  | NaN, _ | _, NaN => NaN
  | _, _ => if le a b then a else b
  end.

(** The result of reading a property that may be missing. *)
Inductive value : Type :=
| Undefined
| Number (n : number).

(** ToNumber on such a value: [undefined] becomes [NaN]. *)
Definition to_number (v : value) : number :=
  match v with
  | Undefined => NaN
  | Number n => n
  end.

(** [v || 0]: [undefined], [0] and [NaN] are falsy. *)
Definition or_zero (v : value) : value :=
  match v with
  | Undefined => Number (Num 0)
  | Number NaN => Number (Num 0)
  | Number (Num 0) => Number (Num 0)
  | Number n => Number n
  end.

(** Not [NaN]. *)
Definition real (a : number) : Prop := a <> NaN.

End JS.
Import JS.

(** ** Pieces and boards, as [game.board()] hands them out *)

(** The side of a piece or of the player to move: ['w'] or ['b']. *)
Inductive Color : Type := White | Black.

(** [c === 'w'] *)
Definition is_w (c : Color) : bool :=
  match c with
  | White => true
  | Black => false
  end.

(** A piece object; the engine reads its [type] and [color] only. *)
Record Piece : Type := mkPiece { type : string; color : Color }.

(** [board[row][col]] is a piece or [null]. *)
Definition Board : Type := list (list (option Piece)).

(** A [Record<string, number>] written as an object literal. *)
Definition Table : Type := list (string * Z).

(** [table[key]] for a key that is not the name of a member the object
    inherits from [Object.prototype]: the entry under [key] when the literal
    has one, [undefined] otherwise.  Under an inherited name ([toString],
    [constructor], ...) the source finds a function or an object instead;
    such keys are outside the range of this definition, and every statement
    about a score is made for piece types within it. *)
Fixpoint lookup (table : Table) (key : string) : value :=
  match table with
  | [] => Undefined
  | (k, v) :: rest => if String.eqb k key then Number (Num v) else lookup rest key
  end.

(** The two nested [for] loops of [evaluateBoard], over the cell reader
    [cell], which gives what one occupied square adds to the total.
    [board[row]] missing makes [board[row][col]] throw ([None]); a missing or
    [null] square is skipped. *)
Definition scanRow (cell : Piece -> number) (r : list (option Piece))
    (total : number) : number :=
  fold_left
    (fun tot col =>
       match nth_error r col with
       | Some (Some piece) => add tot (cell piece)
       | _ => tot
       end)
    (seq 0 8) total.

Definition scanBoard (cell : Piece -> number) (board : Board) : option number :=
  fold_left
    (fun acc row =>
       match acc with
       | None => None
       | Some tot =>
           match nth_error board row with
           | None => None
           | Some r => Some (scanRow cell r tot)
           end
       end)
    (seq 0 8) (Some (Num 0)).

(** ** The rules library, as the engine uses it *)

(** Outcome of running a piece of engine code on the game object: a result
    and the game object after it, an uncaught exception, or no result within
    the recursion budget of the model. *)
Inductive outcome (G A : Type) : Type :=
| Ret (a : A) (g : G)
| Throw
| OutOfFuel.
Arguments Ret {G A} a g.
Arguments Throw {G A}.
Arguments OutOfFuel {G A}.

Definition M (G A : Type) : Type := G -> outcome G A.

Definition ret {G A} (a : A) : M G A := fun g => Ret a g.

Definition bind {G A B} (c : M G A) (k : A -> M G B) : M G B :=
  fun g =>
    match c g with
    | Ret a g' => k a g'
    | Throw => Throw
    | OutOfFuel => OutOfFuel
    end.

Declare Scope engine_scope.
Delimit Scope engine_scope with engine.
Notation "x <- c ;; k" := (bind c (fun x => k))
  (at level 61, c at next level, right associativity) : engine_scope.
Notation "c ;;; k" := (bind c (fun _ => k))
  (at level 61, right associativity) : engine_scope.
Local Open Scope engine_scope.

(** The methods of a [Chess] object that the engine calls.  [move] throws on
    a move that is not legal ([None]); [undo] takes back the last move and
    does nothing when there is none. *)
Class Chess (Game : Type) : Type := {
  moves : Game -> list string;
  move : Game -> string -> option Game;
  undo : Game -> Game;
  isGameOver : Game -> bool;
  turn : Game -> Color;
  board : Game -> Board
}.

Section Effects.
Context {Game : Type} `{Chess Game}.

(** A read-only method call. *)
Definition gets {A} (f : Game -> A) : M Game A := fun g => Ret (f g) g.

(** [game.move(m)] *)
Definition game_move (m : string) : M Game unit :=
  fun g =>
    match move g m with
    | Some g' => Ret tt g'
    | None => Throw
    end.

(** [game.undo()] *)
Definition game_undo : M Game unit := fun g => Ret tt (undo g).

End Effects.

(** What an exported engine function hands back: a move in SAN, [null], or
    [undefined] (an array read past the end). *)
Inductive answer : Type :=
| null
| undefined
| san (m : string).

(** [a[i]] on an array of moves, for an integer [i]. *)
Definition at_index (a : list string) (i : Z) : answer :=
  if i <? 0 then undefined
  else
    match nth_error a (Z.to_nat i) with
    | Some m => san m
    | None => undefined
    end.

(** Truthiness of a string: only the empty string is falsy. *)
Definition truthy (m : string) : bool := negb (String.eqb m "").

(** [bestMove || fallback] for a [bestMove] that is a string or [null]. *)
Definition or_else (bestMove : option string) (fallback : answer) : answer :=
  match bestMove with
  | Some m => if truthy m then san m else fallback
  | None => fallback
  end.

(** ** The search, shared by both engine files

    The two files have the same [minimax], up to the name of one local; it is
    embedded once, over the evaluator it calls.  [fuel] bounds the nesting of
    recursive calls; [depth] is the JavaScript argument. *)
Module Search.
Section Search.
Context {Game : Type} `{Chess Game}.
Variable evaluateBoard : M Game number.

(** The [for (const move of moves)] loop of the maximizing branch, from the
    current [maxEval] and [alpha]; [child a b] is the recursive call
    [minimax(game, depth - 1, a, b, false)]. *)
Fixpoint maxLoop (child : number -> number -> M Game number) (ms : list string)
    (maxEval alpha beta : number) : M Game number :=
  match ms with
  | [] => ret maxEval
  | m :: rest =>
      game_move m ;;;
      evalValue <- child alpha beta ;;
      game_undo ;;;
      let maxEval := Math_max maxEval evalValue in
      let alpha := Math_max alpha evalValue in
      if le beta alpha then ret maxEval
      else maxLoop child rest maxEval alpha beta
  end.

(** The loop of the minimizing branch. *)
Fixpoint minLoop (child : number -> number -> M Game number) (ms : list string)
    (minEval alpha beta : number) : M Game number :=
  match ms with
  | [] => ret minEval
  | m :: rest =>
      game_move m ;;;
      evalValue <- child alpha beta ;;
      game_undo ;;;
      let minEval := Math_min minEval evalValue in
      let beta := Math_min beta evalValue in
      if le beta alpha then ret minEval
      else minLoop child rest minEval alpha beta
  end.

Fixpoint minimax (fuel : nat) (depth : Z) (alpha beta : number)
    (isMaximizingPlayer : bool) : M Game number :=
  match fuel with
  | O => fun _ => OutOfFuel
  | S fuel' =>
      over <- gets isGameOver ;;
      if (depth =? 0) || over then evaluateBoard
      else
        ms <- gets moves ;;
        if isMaximizingPlayer then
          maxLoop (fun a b => minimax fuel' (depth - 1) a b false)
                  ms NInf alpha beta
        else
          minLoop (fun a b => minimax fuel' (depth - 1) a b true)
                  ms PInf alpha beta
  end.

(** The exhaustive traversal the specification compares [minimax] with: the
    same recursion with the cutoff test removed, so that the running best is
    the maximum (minimum) of the values of all the children. *)
Fixpoint fullMaxLoop (child : M Game number) (ms : list string)
    (maxEval : number) : M Game number :=
  match ms with
  | [] => ret maxEval
  | m :: rest =>
      game_move m ;;;
      evalValue <- child ;;
      game_undo ;;;
      fullMaxLoop child rest (Math_max maxEval evalValue)
  end.

Fixpoint fullMinLoop (child : M Game number) (ms : list string)
    (minEval : number) : M Game number :=
  match ms with
  | [] => ret minEval
  | m :: rest =>
      game_move m ;;;
      evalValue <- child ;;
      game_undo ;;;
      fullMinLoop child rest (Math_min minEval evalValue)
  end.

Fixpoint fullMinimax (fuel : nat) (depth : Z) (isMaximizingPlayer : bool)
    : M Game number :=
  match fuel with
  | O => fun _ => OutOfFuel
  | S fuel' =>
      over <- gets isGameOver ;;
      if (depth =? 0) || over then evaluateBoard
      else
        ms <- gets moves ;;
        if isMaximizingPlayer then
          fullMaxLoop (fullMinimax fuel' (depth - 1) false) ms NInf
        else
          fullMinLoop (fullMinimax fuel' (depth - 1) true) ms PInf
  end.

End Search.
End Search.

(** ** The depth-parameterised engine (exports [getRandomMove] and
    [getBestMove]) *)
Module Engine.

Definition PIECE_VALUES : Table :=
  [("p", 1); ("n", 3); ("b", 3); ("r", 5); ("q", 9); ("k", 0)].

(** What the body of [if (piece) { ... }] adds to [totalEvaluation]:
    [piece.color === 'w' ? value : -value] for
    [value = PIECE_VALUES[piece.type]], for a piece type in the range of
    [lookup]. *)
Definition contribution (piece : Piece) : number :=
  let value := lookup PIECE_VALUES (type piece) in
  if is_w (color piece) then to_number value else neg (to_number value).

(** [evaluateBoard] on the grid that [game.board()] returned. *)
Definition evaluateGrid (grid : Board) : option number :=
  scanBoard contribution grid.

Section WithGame.
Context {Game : Type} `{Chess Game}.

Definition evaluateBoard : M Game number :=
  grid <- gets board ;;
  match evaluateGrid grid with
  | Some total => ret total
  | None => fun _ => Throw
  end.

Definition minimax : nat -> Z -> number -> number -> bool -> M Game number :=
  Search.minimax evaluateBoard.

Definition fullMinimax : nat -> Z -> bool -> M Game number :=
  Search.fullMinimax evaluateBoard.

(** [random] is the value of [Math.random()]. *)
Definition getRandomMove (random : Q) : M Game answer :=
  ms <- gets moves ;;
  if (List.length ms =? 0)%nat then ret null
  else ret (at_index ms (Qfloor (random * inject_Z (Z.of_nat (List.length ms))))).

(** The [for] loop of [getBestMove], from the current [bestMove] and
    [bestValue]. *)
Fixpoint bestLoop (fuel : nat) (depth : Z) (ms : list string)
    (bestMove : option string) (bestValue : number)
    : M Game (option string * number) :=
  match ms with
  | [] => ret (bestMove, bestValue)
  | m :: rest =>
      game_move m ;;;
      turnAfter <- gets turn ;;
      boardValue <- minimax fuel (depth - 1) NInf PInf (is_w turnAfter) ;;
      game_undo ;;;
      turnNow <- gets turn ;;
      if is_w turnNow then
        if gt boardValue bestValue
        then bestLoop fuel depth rest (Some m) boardValue
        else bestLoop fuel depth rest bestMove bestValue
      else
        if lt boardValue bestValue
        then bestLoop fuel depth rest (Some m) boardValue
        else bestLoop fuel depth rest bestMove bestValue
  end.

(** [shuffle] is what [moves.sort(() => Math.random() - 0.5)] makes of the
    array. *)
Definition getBestMove (shuffle : list string -> list string) (fuel : nat)
    (depth : Z) : M Game answer :=
  ms <- gets moves ;;
  if (List.length ms =? 0)%nat then ret null
  else
    side <- gets turn ;;
    let bestValue := if is_w side then NInf else PInf in
    let ms := shuffle ms in
    best <- bestLoop fuel depth ms None bestValue ;;
    ret (or_else (fst best) (at_index ms 0)).

(** [getBestMove(game)], with the default [depth = 3]. *)
Definition getBestMove_default (shuffle : list string -> list string)
    (fuel : nat) : M Game answer :=
  getBestMove shuffle fuel 3.

End WithGame.
End Engine.

(** ** The fixed-depth engine with the tenfold table *)
Module EngineFixed.

Definition PIECE_VALUES : Table :=
  [("p", 10); ("n", 30); ("b", 30); ("r", 50); ("q", 90); ("k", 900)].

(** As in [Engine], for [value = PIECE_VALUES[piece.type] || 0]; again for a
    piece type in the range of [lookup], since [|| 0] keeps what the object
    inherits. *)
Definition contribution (piece : Piece) : number :=
  let value := or_zero (lookup PIECE_VALUES (type piece)) in
  if is_w (color piece) then to_number value else neg (to_number value).

Definition evaluateGrid (grid : Board) : option number :=
  scanBoard contribution grid.

Section WithGame.
Context {Game : Type} `{Chess Game}.

Definition evaluateBoard : M Game number :=
  grid <- gets board ;;
  match evaluateGrid grid with
  | Some total => ret total
  | None => fun _ => Throw
  end.

Definition minimax : nat -> Z -> number -> number -> bool -> M Game number :=
  Search.minimax evaluateBoard.

Definition fullMinimax : nat -> Z -> bool -> M Game number :=
  Search.fullMinimax evaluateBoard.

Definition DEPTH : Z := 3.

Fixpoint bestLoop (fuel : nat) (isMaximizing : bool) (ms : list string)
    (bestMove : option string) (bestValue : number)
    : M Game (option string * number) :=
  match ms with
  | [] => ret (bestMove, bestValue)
  | m :: rest =>
      game_move m ;;;
      boardValue <- minimax fuel (DEPTH - 1) NInf PInf (negb isMaximizing) ;;
      game_undo ;;;
      if isMaximizing then
        if gt boardValue bestValue
        then bestLoop fuel isMaximizing rest (Some m) boardValue
        else bestLoop fuel isMaximizing rest bestMove bestValue
      else
        if lt boardValue bestValue
        then bestLoop fuel isMaximizing rest (Some m) boardValue
        else bestLoop fuel isMaximizing rest bestMove bestValue
  end.

Definition getBestMove (shuffle : list string -> list string) (fuel : nat)
    : M Game answer :=
  ms <- gets moves ;;
  if (List.length ms =? 0)%nat then ret null
  else
    side <- gets turn ;;
    let bestValue := if is_w side then NInf else PInf in
    let isMaximizing := is_w side in
    let ms := shuffle ms in
    best <- bestLoop fuel isMaximizing ms None bestValue ;;
    ret (or_else (fst best) (at_index ms 0)).

End WithGame.
End EngineFixed.

(** ** Vocabulary of the specification *)

(** A grid of eight rows of eight squares. *)
Definition grid8x8 (grid : Board) : Prop :=
  List.length grid = 8%nat /\ Forall (fun r => List.length r = 8%nat) grid.

(** The piece type has an entry in the table. *)
Definition listed (table : Table) (piece : Piece) : bool :=
  match lookup table (type piece) with
  | Undefined => false
  | Number _ => true
  end.

(** Every piece on the grid satisfies [P]. *)
Definition every_piece (P : Piece -> bool) (grid : Board) : bool :=
  forallb
    (forallb (fun sq => match sq with Some p => P p | None => true end))
    grid.

(** Every piece on the grid is of a type listed in the table. *)
Definition all_listed (table : Table) (grid : Board) : bool :=
  every_piece (listed table) grid.

(** The grid has no piece at all. *)
Definition empty_grid (grid : Board) : bool :=
  every_piece (fun _ => false) grid.

Definition is_king (p : Piece) : bool := String.eqb (type p) "k".

(** The grid has kings only. *)
Definition kings_only (grid : Board) : bool :=
  every_piece is_king grid.

(** The value the table fixes for a piece type; nothing for a type it does
    not list. *)
Definition piece_value (table : Table) (ty : string) : Z :=
  match lookup table ty with
  | Number (Num v) => v
  | _ => 0
  end.

(** The value of a piece, positive for White and negative for Black. *)
Definition signed_value (table : Table) (piece : Piece) : Z :=
  match color piece with
  | White => piece_value table (type piece)
  | Black => - piece_value table (type piece)
  end.

(** Sum of [f] over the occupied squares of a row, and of a grid. *)
Definition row_sum (f : Piece -> Z) (r : list (option Piece)) : Z :=
  fold_right
    (fun sq acc => match sq with Some p => f p + acc | None => acc end) 0 r.

Definition sum_squares (f : Piece -> Z) (grid : Board) : Z :=
  fold_right (fun r acc => row_sum f r + acc) 0 grid.

(** The material balance: the sum over all occupied squares of the signed
    value of the piece. *)
Definition material (table : Table) (grid : Board) : Z :=
  sum_squares (signed_value table) grid.

(** A king of side [c] counts one. *)
Definition king_of (c : Color) (p : Piece) : Z :=
  if is_king p && Bool.eqb (is_w (color p)) (is_w c) then 1 else 0.

(** Number of kings of one side. *)
Definition kings_of (c : Color) (grid : Board) : Z :=
  sum_squares (king_of c) grid.

(** Both sides are reduced to their bare kings. *)
Definition bare_kings_only (grid : Board) : Prop :=
  kings_only grid = true /\ kings_of White grid = 1 /\ kings_of Black grid = 1.

(** The second evaluator returns [c] times what the first returns. *)
Definition scaled_by (c : Q) (grid : Board) : Prop :=
  exists s1 s2 : Z,
    Engine.evaluateGrid grid = Some (Num s1) /\
    EngineFixed.evaluateGrid grid = Some (Num s2) /\
    (inject_Z s2 == c * inject_Z s1)%Q.

Definition swap_color (c : Color) : Color :=
  match c with
  | White => Black
  | Black => White
  end.

(** The grid with the side of every piece swapped. *)
Definition colorSwap (grid : Board) : Board :=
  map (map (option_map (fun p => mkPiece (type p) (swap_color (color p))))) grid.

(** A score cut to the window [(alpha, beta)]. *)
Definition clamp (alpha beta x : number) : number :=
  Math_max alpha (Math_min beta x).

(** ** A small concrete rules object

    Positions are nodes of a finite tree of named moves; the game object keeps
    the node it is at and the nodes it came through, as [chess.js] keeps its
    history. *)
Module Toy.

Inductive Kind : Type := Pawn | Knight | Bishop | Rook | Queen | King.

Definition symbol (k : Kind) : string :=
  match k with
  | Pawn => "p"
  | Knight => "n"
  | Bishop => "b"
  | Rook => "r"
  | Queen => "q"
  | King => "k"
  end.

#[warnings="-register-all"]
Inductive tree : Type :=
| Node (pieces : list (Kind * Color)) (side : Color) (over : bool)
       (kids : list (string * tree)).

Definition pieces_of (t : tree) : list (Kind * Color) :=
  match t with Node ps _ _ _ => ps end.

Definition side_of (t : tree) : Color :=
  match t with Node _ s _ _ => s end.

Definition over_of (t : tree) : bool :=
  match t with Node _ _ o _ => o end.

Definition kids_of (t : tree) : list (string * tree) :=
  match t with Node _ _ _ ks => ks end.

(** The pieces laid out on the squares in reading order. *)
Definition grid_of (ps : list (Kind * Color)) : Board :=
  map
    (fun r =>
       map
         (fun c =>
            option_map (fun kc => mkPiece (symbol (fst kc)) (snd kc))
                       (nth_error ps (8 * r + c)))
         (seq 0 8))
    (seq 0 8).

Record Game : Type := mkGame { here : tree; above : list tree }.

Definition play (g : Game) (m : string) : option Game :=
  match find (fun kv => String.eqb (fst kv) m) (kids_of (here g)) with
  | Some kv => Some (mkGame (snd kv) (here g :: above g))
  | None => None
  end.

Definition back (g : Game) : Game :=
  match above g with
  | p :: rest => mkGame p rest
  | [] => g
  end.

#[global] Instance chess : Chess Game := {
  moves g := map fst (kids_of (here g));
  move := play;
  undo := back;
  isGameOver g := over_of (here g);
  turn g := side_of (here g);
  board g := grid_of (pieces_of (here g))
}.

(** A position where the game has ended. *)
Definition leaf (ps : list (Kind * Color)) (s : Color) : tree :=
  Node ps s true [].

Definition kings : list (Kind * Color) := [(King, White); (King, Black)].

(** White to move with three moves; the first two lead to positions where
    Black has replies, the third ends the game. *)
Definition sample : tree :=
  Node (kings ++ [(Queen, White); (Rook, Black); (Pawn, Black)]) White false
    [ ("Qxa8",
       Node (kings ++ [(Queen, White); (Pawn, Black)]) Black false
         [ ("Kxa8", leaf (kings ++ [(Pawn, Black)]) White);
           ("Kb7", leaf (kings ++ [(Queen, White); (Pawn, Black)]) White) ]);
      ("Qxh2",
       Node (kings ++ [(Queen, White); (Rook, Black)]) Black false
         [ ("Ra1", leaf (kings ++ [(Queen, White); (Rook, Black)]) White) ]);
      ("Kf2",
       leaf (kings ++ [(Queen, White); (Rook, Black); (Pawn, Black)]) Black) ].

Definition start : Game := mkGame sample [].

(** A position with nothing to play. *)
Definition stuck : Game := mkGame (Node kings Black true []) [].

(** A position with no piece on the board. *)
Definition blank : Game := mkGame (Node [] White false []) [].

End Toy.

(** Sample grids. *)
Definition blank_row : list (option Piece) := repeat None 8.

Definition put (p : Piece) : list (option Piece) := Some p :: repeat None 7.

(** One white king on an otherwise empty board. *)
Definition lone_king : Board :=
  put (mkPiece "k" White) :: repeat blank_row 7.

(** Both sides reduced to bare kings. *)
Definition bare_kings : Board :=
  put (mkPiece "k" White) :: repeat blank_row 6 ++ [put (mkPiece "k" Black)].

(** A white piece of a type the tables do not list. *)
Definition odd_piece : Board :=
  put (mkPiece "x" White) :: repeat blank_row 7.

(** ** Reading the two loops of the evaluator step by step *)

(** One step of the inner loop, on the square read. *)
Definition square_step (cell : Piece -> number) (tot : number)
    (sq : option (option Piece)) : number :=
  match sq with
  | Some (Some piece) => add tot (cell piece)
  | _ => tot
  end.

(** One step of the outer loop, on the row read. *)
Definition row_step (cell : Piece -> number) (acc : option number)
    (r : option (list (option Piece))) : option number :=
  match acc with
  | None => None
  | Some tot =>
      match r with
      | None => None
      | Some r => Some (scanRow cell r tot)
      end
  end.

(** Every piece of the row (grid) adds the integer that [f] gives it. *)
Definition row_adds (cell : Piece -> number) (f : Piece -> Z)
    (r : list (option Piece)) : Prop :=
  Forall (fun sq => forall p, sq = Some p -> cell p = Num (f p)) r.

Definition grid_adds (cell : Piece -> number) (f : Piece -> Z) (grid : Board)
    : Prop :=
  Forall (row_adds cell f) grid.

(** ** The values the search computes, read off the game tree

    With a rules object whose [undo] takes back [move], what [minimax]
    returns is a function of the position alone.  [after g m] is the position
    that [m] leads to and [score g] the evaluation of [g]. *)
Section Values.
Context {Game : Type} `{Chess Game}.
Variable score : Game -> number.

Definition after (g : Game) (m : string) : Game :=
  match move g m with
  | Some g' => g'
  | None => g
  end.

(** Value of the maximizing loop over the moves [ms] of [g]. *)
Fixpoint abMax (child : Game -> number -> number -> number) (g : Game)
    (ms : list string) (maxEval alpha beta : number) : number :=
  match ms with
  | [] => maxEval
  | m :: rest =>
      let evalValue := child (after g m) alpha beta in
      let maxEval := Math_max maxEval evalValue in
      let alpha := Math_max alpha evalValue in
      if le beta alpha then maxEval else abMax child g rest maxEval alpha beta
  end.

(** Value of the minimizing loop. *)
Fixpoint abMin (child : Game -> number -> number -> number) (g : Game)
    (ms : list string) (minEval alpha beta : number) : number :=
  match ms with
  | [] => minEval
  | m :: rest =>
      let evalValue := child (after g m) alpha beta in
      let minEval := Math_min minEval evalValue in
      let beta := Math_min beta evalValue in
      if le beta alpha then minEval else abMin child g rest minEval alpha beta
  end.

(** Value of the search with the cutoff, [d] plies deep. *)
Fixpoint alphabeta (d : nat) (g : Game) (alpha beta : number) (maximizing : bool)
    : number :=
  match d with
  | O => score g
  | S d' =>
      if isGameOver g then score g
      else if maximizing then
        abMax (fun g' a b => alphabeta d' g' a b false) g (moves g) NInf alpha beta
      else
        abMin (fun g' a b => alphabeta d' g' a b true) g (moves g) PInf alpha beta
  end.

(** Maximum and minimum of the children's values. *)
Definition maxOver (child : Game -> number) (g : Game) (ms : list string)
    (start : number) : number :=
  fold_left (fun acc m => Math_max acc (child (after g m))) ms start.

Definition minOver (child : Game -> number) (g : Game) (ms : list string)
    (start : number) : number :=
  fold_left (fun acc m => Math_min acc (child (after g m))) ms start.

(** Value of the exhaustive search, [d] plies deep. *)
Fixpoint exhaustive (d : nat) (g : Game) (maximizing : bool) : number :=
  match d with
  | O => score g
  | S d' =>
      if isGameOver g then score g
      else if maximizing then
        maxOver (fun g' => exhaustive d' g' false) g (moves g) NInf
      else
        minOver (fun g' => exhaustive d' g' true) g (moves g) PInf
  end.

End Values.

(** A computation that, when it returns, leaves the game object as it was. *)
Definition restores {Game A : Type} (c : M Game A) : Prop :=
  forall g a g', c g = Ret a g' -> g' = g.

(** The [for] loop of [getBestMove] read off the game tree: [value] is the
    value of the position a move leads to, [maximizing] whether White is to
    move. *)
Fixpoint bestOf {Game : Type} `{Chess Game} (value : Game -> number)
    (maximizing : bool) (g : Game) (ms : list string)
    (bestMove : option string) (bestValue : number) : option string * number :=
  match ms with
  | [] => (bestMove, bestValue)
  | m :: rest =>
      let boardValue := value (after g m) in
      if maximizing then
        if gt boardValue bestValue
        then bestOf value maximizing g rest (Some m) boardValue
        else bestOf value maximizing g rest bestMove bestValue
      else
        if lt boardValue bestValue
        then bestOf value maximizing g rest (Some m) boardValue
        else bestOf value maximizing g rest bestMove bestValue
  end.

(** The evaluation of a position, when the grid can be scanned. *)
Definition score_with {Game : Type} `{Chess Game}
    (evaluateGrid : Board -> option number) (g : Game) : number :=
  match evaluateGrid (board g) with
  | Some s => s
  | None => NaN
  end.

(** Value of the position [g'] that a move of [getBestMove(game, depth)] leads
    to, in the depth-parameterised engine. *)
Definition value_at {Game : Type} `{Chess Game} (depth : Z) (g' : Game)
    : number :=
  alphabeta (score_with Engine.evaluateGrid) (Z.to_nat (depth - 1)) g'
            NInf PInf (is_w (turn g')).

(** The same in the fixed-depth engine, [maximizing] being whether White was
    to move before the move. *)
Definition value_fixed {Game : Type} `{Chess Game} (maximizing : bool)
    (g' : Game) : number :=
  alphabeta (score_with EngineFixed.evaluateGrid) 2 g' NInf PInf
            (negb maximizing).

(** ** The callers of the engine

    The two [Game] components run the engine on a copy of the game object
    ([new Chess(game.fen())]) and then make the move it returns on that same
    copy.  What is embedded is what these callbacks do to the copy; the React
    state setters are outside the game object, and the result of the
    computation records whether [setGame(gameCopy)] was reached. *)

(** ['human' | 'random' | 'minimax-1' | 'minimax-2' | 'minimax-3'] *)
Inductive PlayerType : Type :=
| Human
| Random
| Minimax1
| Minimax2
| Minimax3.

(** [if (move)] on what the engine handed back: the move, when there is one
    and it is not the empty string. *)
Definition if_move (a : answer) : option string :=
  match a with
  | san m => if truthy m then Some m else None
  | null => None
  | undefined => None
  end.

Section Callers.
Context {Game : Type} `{Chess Game}.

(** The [switch (currentPlayerType)] of the timer callback; no case matches
    ['human'] and [move] stays [null]. *)
Definition pickMove (currentPlayerType : PlayerType) (random : Q)
    (shuffle : list string -> list string) (fuel : nat) : M Game answer :=
  match currentPlayerType with
  | Human => ret null
  | Random => Engine.getRandomMove random
  | Minimax1 => Engine.getBestMove shuffle fuel 1
  | Minimax2 => Engine.getBestMove shuffle fuel 2
  | Minimax3 => Engine.getBestMove shuffle fuel 3
  end.

(** The timer callback of the game loop, on [gameCopy]: the move made, if
    any. *)
Definition aiTimer (currentPlayerType : PlayerType) (random : Q)
    (shuffle : list string -> list string) (fuel : nat)
    : M Game (option string) :=
  mv <- pickMove currentPlayerType random shuffle fuel ;;
  match if_move mv with
  | Some m => game_move m ;;; ret (Some m)
  | None => ret None
  end.

(** [makeAiMove] of the auto-play component, on [gameCopy], over the
    [getBestMove(gameCopy)] it imports. *)
Definition makeAiMove (getBestMove : M Game answer) : M Game (option string) :=
  over <- gets isGameOver ;;
  if over then ret None
  else
    bestMove <- getBestMove ;;
    match if_move bestMove with
    | Some m => game_move m ;;; ret (Some m)
    | None => ret None
    end.

(** [v] is the value the exhaustive search gives the position that the move
    [m] leads to, as [getBestMove(game, depth)] searches it. *)
Definition leads_to (fuel : nat) (depth : Z) (g : Game) (m : string)
    (v : number) : Prop :=
  exists gm, move g m = Some gm /\
    Engine.fullMinimax fuel (depth - 1) (is_w (turn gm)) gm = Ret v gm.

(** The same for the fixed-depth engine. *)
Definition leads_to_fixed (fuel : nat) (g : Game) (m : string) (v : number)
    : Prop :=
  exists gm, move g m = Some gm /\
    EngineFixed.fullMinimax fuel (EngineFixed.DEPTH - 1)
      (negb (is_w (turn g))) gm = Ret v gm.

End Callers.

(** [a] is at least as good as [c] for the side to move. *)
Definition no_worse (maximizing : bool) (a c : number) : bool :=
  if maximizing then le c a else le a c.

(** [a] is strictly better than [c] for the side to move. *)
Definition better (maximizing : bool) (a c : number) : bool :=
  if maximizing then lt c a else lt a c.

(** A finite score of magnitude at most [limit]. *)
Definition within (limit : Z) (a : number) : Prop :=
  exists z, a = Num z /\ - limit <= z <= limit.

(** A score multiplied by ten. *)
Definition tenfold (a : number) : number :=
  match a with
  | Num z => Num (10 * z)
  | PInf => PInf
  | NInf => NInf
  | NaN => NaN
  end.

(** The window of the grid that the evaluator reads. *)
Definition window8 (grid : Board) : Board := firstn 8 (map (firstn 8) grid).

(** ** A rules object that never ends

    Two moves are always on offer and the sides alternate; the grid shown is a
    function of the moves played, newest first. *)
Module Loop.

Record Game : Type := mkGame { played : list string }.

Definition names : list string := ["e4"; "Nf3"].

Definition side (n : nat) : Color := if Nat.even n then White else Black.

Definition play (g : Game) (m : string) : option Game :=
  if existsb (String.eqb m) names then Some (mkGame (m :: played g)) else None.

Definition rules (grid_for : list string -> Board) : Chess Game := {|
  moves := fun _ => names;
  move := play;
  undo := fun g => mkGame (tl (played g));
  isGameOver := fun _ => false;
  turn := fun g => side (List.length (played g));
  board := fun g => grid_for (played g)
|}.

(** Three boards shown in turn. *)
Definition boards : list Board :=
  [ Toy.grid_of Toy.kings;
    Toy.grid_of (Toy.kings ++ [(Toy.Queen, White); (Toy.Rook, Black)]);
    Toy.grid_of (Toy.kings ++ [(Toy.Knight, Black)]) ].

Definition cycle : Chess Game :=
  rules (fun ms => nth (List.length ms mod 3) boards (Toy.grid_of Toy.kings)).

(** Always the board with the piece of an unlisted type. *)
Definition odd : Chess Game := rules (fun _ => odd_piece).

Definition start : Game := mkGame [].

End Loop.

(** A position of the sample where Black has one reply. *)
Definition toy_forced : Toy.Game :=
  Toy.mkGame
    (Toy.Node (Toy.kings ++ [(Toy.Queen, White); (Toy.Rook, Black)]) Black false
       [("Ra1", Toy.leaf (Toy.kings ++ [(Toy.Queen, White); (Toy.Rook, Black)])
                  White)])
    [].

(** ** The range of the table read

    [PIECE_VALUES[piece.type]] also finds what the table object inherits from
    [Object.prototype]: under one of these names it gives a function or an
    object, where [lookup] gives [undefined].  The embedding of the evaluator
    is therefore that of the source for the piece types that are not among
    these names, and the statements about scores are made for such types: the
    listed ones, which are all [chess.js] gives a piece, or the ones that are
    neither listed nor inherited. *)
Definition inherited_names : list string :=
  [ "constructor"; "__defineGetter__"; "__defineSetter__"; "hasOwnProperty";
    "__lookupGetter__"; "__lookupSetter__"; "isPrototypeOf";
    "propertyIsEnumerable"; "toString"; "valueOf"; "__proto__";
    "toLocaleString" ].

(** The piece type is not the name of an inherited member. *)
Definition plain (p : Piece) : bool :=
  negb (existsb (String.eqb (type p)) inherited_names).


(** * Facts *)

(** ** Arithmetic of JavaScript numbers *)

Lemma neg_involutive (a : number) : neg (neg a) = a.
Proof. destruct a; simpl; try reflexivity. now rewrite Z.opp_involutive. Qed.

Lemma neg_add (a c : number) : neg (add a c) = add (neg a) (neg c).
Proof. destruct a, c; simpl; try reflexivity. now rewrite Z.opp_add_distr. Qed.

(** ** The scan of the grid *)

Lemma scanRow_unfold cell (r : list (option Piece)) (total : number) :
  scanRow cell r total =
  fold_left (fun tot col => square_step cell tot (nth_error r col)) (seq 0 8)
            total.
Proof. reflexivity. Qed.

Lemma scanBoard_unfold cell (grid : Board) :
  scanBoard cell grid =
  fold_left (fun acc row => row_step cell acc (nth_error grid row)) (seq 0 8)
            (Some (Num 0)).
Proof. reflexivity. Qed.

(** Reading an array at the indices [length pre], ..., in turn visits the
    elements after [pre] in order. *)
Lemma fold_indices {A B} (f : B -> option A -> B) (l pre : list A) (acc : B) :
  fold_left (fun a i => f a (nth_error (pre ++ l) i))
            (seq (List.length pre) (List.length l)) acc =
  fold_left (fun a x => f a (Some x)) l acc.
Proof.
  revert pre acc; induction l as [|x l IH]; intros pre acc; simpl.
  - reflexivity.
  - rewrite nth_error_app2 by apply Nat.le_refl.
    rewrite Nat.sub_diag; simpl.
    specialize (IH (pre ++ [x]) (f acc (Some x))).
    rewrite <- app_assoc in IH; simpl in IH.
    rewrite length_app in IH; simpl in IH.
    rewrite Nat.add_1_r in IH. exact IH.
Qed.

Lemma fold_indices0 {A B} (f : B -> option A -> B) (l : list A) (acc : B) :
  fold_left (fun a i => f a (nth_error l i)) (seq 0 (List.length l)) acc =
  fold_left (fun a x => f a (Some x)) l acc.
Proof. exact (fold_indices f l [] acc). Qed.

Section ScanSum.
Variable cell : Piece -> number.
Variable f : Piece -> Z.

Lemma row_fold_sum (r : list (option Piece)) (a : Z) :
  row_adds cell f r ->
  fold_left (fun tot sq => square_step cell tot (Some sq)) r (Num a) =
  Num (a + row_sum f r).
Proof.
  intros Hr; revert a; induction Hr as [|sq r Hsq _ IH]; intros a; simpl.
  - now rewrite Z.add_0_r.
  - destruct sq as [p|].
    + rewrite (Hsq p eq_refl); simpl. rewrite IH. f_equal; lia.
    + apply IH.
Qed.

Lemma scanRow_sum (r : list (option Piece)) (a : Z) :
  List.length r = 8%nat -> row_adds cell f r ->
  scanRow cell r (Num a) = Num (a + row_sum f r).
Proof.
  intros Hlen Hr. rewrite scanRow_unfold, <- Hlen.
  rewrite (fold_indices0 (square_step cell)). now apply row_fold_sum.
Qed.

Lemma grid_fold_sum (grid : Board) (a : Z) :
  Forall (fun r => List.length r = 8%nat) grid -> grid_adds cell f grid ->
  fold_left (fun acc r => row_step cell acc (Some r)) grid (Some (Num a)) =
  Some (Num (a + sum_squares f grid)).
Proof.
  intros Hlen Hg; revert a Hlen.
  induction Hg as [|r grid Hr _ IH]; intros a Hlen; simpl.
  - now rewrite Z.add_0_r.
  - inversion Hlen as [|? ? Hr8 Hrest]; subst.
    rewrite (scanRow_sum r a Hr8 Hr). rewrite (IH _ Hrest). do 2 f_equal; lia.
Qed.

(** On an eight by eight grid the two loops return the sum over the occupied
    squares. *)
Lemma scanBoard_sum (grid : Board) :
  grid8x8 grid -> grid_adds cell f grid ->
  scanBoard cell grid = Some (Num (sum_squares f grid)).
Proof.
  intros [Hlen Hrows] Hg. rewrite scanBoard_unfold, <- Hlen.
  rewrite (fold_indices0 (row_step cell)).
  now rewrite (grid_fold_sum grid 0 Hrows Hg).
Qed.

End ScanSum.

(** ** Sums over the squares *)

Lemma every_piece_adds cell f (P : Piece -> bool) (grid : Board) :
  (forall p, P p = true -> cell p = Num (f p)) ->
  every_piece P grid = true -> grid_adds cell f grid.
Proof.
  intros HP Hall. unfold every_piece in Hall.
  rewrite forallb_forall in Hall. apply Forall_forall; intros r Hr.
  specialize (Hall r Hr). rewrite forallb_forall in Hall.
  apply Forall_forall; intros sq Hsq p ->. apply HP. exact (Hall _ Hsq).
Qed.

Lemma every_piece_mono (P P' : Piece -> bool) (grid : Board) :
  (forall p, P p = true -> P' p = true) ->
  every_piece P grid = true -> every_piece P' grid = true.
Proof.
  intros HP Hall. unfold every_piece in *.
  rewrite forallb_forall in *; intros r Hr. specialize (Hall r Hr).
  rewrite forallb_forall in *; intros [p|] Hsq; [|reflexivity].
  apply HP. exact (Hall _ Hsq).
Qed.

Lemma sum_squares_ext (P : Piece -> bool) (f h : Piece -> Z) (grid : Board) :
  (forall p, P p = true -> f p = h p) ->
  every_piece P grid = true -> sum_squares f grid = sum_squares h grid.
Proof.
  intros HP. induction grid as [|r grid IH]; simpl; [reflexivity|].
  intros Hall. apply andb_prop in Hall as [Hr Hrest].
  rewrite (IH Hrest). f_equal. clear IH Hrest.
  induction r as [|sq r IHr]; simpl; [reflexivity|].
  simpl in Hr. apply andb_prop in Hr as [Hsq Hr].
  rewrite (IHr Hr). destruct sq as [p|]; [|reflexivity]. now rewrite (HP p Hsq).
Qed.

Lemma sum_squares_all (f h : Piece -> Z) (grid : Board) :
  (forall p, f p = h p) -> sum_squares f grid = sum_squares h grid.
Proof.
  intros Hfh. induction grid as [|r grid IH]; simpl; [reflexivity|].
  rewrite IH. f_equal.
  induction r as [|[p|] r IHr]; simpl; rewrite ?IHr, ?Hfh; reflexivity.
Qed.

Lemma sum_squares_linear (a c : Z) (f h : Piece -> Z) (grid : Board) :
  sum_squares (fun p => a * f p + c * h p) grid =
  a * sum_squares f grid + c * sum_squares h grid.
Proof.
  induction grid as [|r grid IH]; simpl; [lia|]. rewrite IH.
  assert (Hrow : row_sum (fun p => a * f p + c * h p) r =
                 a * row_sum f r + c * row_sum h r).
  { induction r as [|[p|] r IHr]; simpl; rewrite ?IHr; lia. }
  rewrite Hrow; lia.
Qed.

Lemma sum_squares_zero (grid : Board) : sum_squares (fun _ => 0) grid = 0.
Proof.
  induction grid as [|r grid IH]; simpl; [reflexivity|].
  rewrite IH, Z.add_0_r. induction r as [|[p|] r IHr]; simpl; auto.
Qed.

Lemma sum_squares_empty (f : Piece -> Z) (grid : Board) :
  empty_grid grid = true -> sum_squares f grid = 0.
Proof.
  intros He.
  rewrite (sum_squares_ext (fun _ => false) f (fun _ => 0) grid);
    [apply sum_squares_zero|discriminate|exact He].
Qed.

(** ** The two tables *)

Lemma lookup_shape (table : Table) (key : string) :
  lookup table key = Undefined \/ exists v, lookup table key = Number (Num v).
Proof.
  induction table as [|[k v] table IH]; simpl; [now left|].
  destruct (String.eqb k key); [right; now exists v|exact IH].
Qed.

(** A key is one of the six piece letters, or neither table lists it. *)
Lemma key_cases (ty : string) :
  (ty = "p" \/ ty = "n" \/ ty = "b" \/ ty = "r" \/ ty = "q" \/ ty = "k") \/
  (lookup Engine.PIECE_VALUES ty = Undefined /\
   lookup EngineFixed.PIECE_VALUES ty = Undefined /\
   String.eqb ty "k" = false).
Proof.
  unfold Engine.PIECE_VALUES, EngineFixed.PIECE_VALUES; cbn [lookup].
  rewrite (String.eqb_sym ty "k").
  destruct (String.eqb "p" ty) eqn:Ep;
    [apply String.eqb_eq in Ep; subst; tauto|].
  destruct (String.eqb "n" ty) eqn:En;
    [apply String.eqb_eq in En; subst; tauto|].
  destruct (String.eqb "b" ty) eqn:Eb;
    [apply String.eqb_eq in Eb; subst; tauto|].
  destruct (String.eqb "r" ty) eqn:Er;
    [apply String.eqb_eq in Er; subst; tauto|].
  destruct (String.eqb "q" ty) eqn:Eq;
    [apply String.eqb_eq in Eq; subst; tauto|].
  destruct (String.eqb "k" ty) eqn:Ek;
    [apply String.eqb_eq in Ek; subst; tauto|].
  right; auto.
Qed.

Ltac by_key ty :=
  destruct (key_cases ty) as
    [[-> | [-> | [-> | [-> | [-> | ->]]]]] | (Hu1 & Hu2 & Hk)].

(** What a listed piece adds in the depth-parameterised engine. *)
Lemma contribution_listed (p : Piece) :
  listed Engine.PIECE_VALUES p = true ->
  Engine.contribution p = Num (signed_value Engine.PIECE_VALUES p).
Proof.
  destruct p as [ty c]. unfold listed, Engine.contribution, signed_value,
    piece_value; cbn [type color].
  by_key ty; [destruct c; intros _; reflexivity ..|].
  rewrite Hu1. discriminate.
Qed.

(** What a listed piece adds in the fixed-depth engine. *)
Lemma contribution_fixed (p : Piece) :
  listed EngineFixed.PIECE_VALUES p = true ->
  EngineFixed.contribution p = Num (signed_value EngineFixed.PIECE_VALUES p).
Proof.
  destruct p as [ty c]. unfold listed, EngineFixed.contribution, signed_value,
    piece_value; cbn [type color].
  by_key ty; [destruct c; intros _; reflexivity ..|].
  rewrite Hu2. discriminate.
Qed.


(** The two tables list the same piece types. *)
Lemma listed_fixed (p : Piece) :
  listed EngineFixed.PIECE_VALUES p = listed Engine.PIECE_VALUES p.
Proof.
  destruct p as [ty c]. unfold listed; cbn [type].
  by_key ty; try reflexivity. now rewrite Hu1, Hu2.
Qed.

Lemma all_listed_fixed (grid : Board) :
  all_listed Engine.PIECE_VALUES grid = true ->
  all_listed EngineFixed.PIECE_VALUES grid = true.
Proof.
  apply every_piece_mono. intros p Hp. now rewrite listed_fixed.
Qed.

(** The second table is ten times the first, except for the king. *)
Lemma signed_value_tenfold (p : Piece) :
  signed_value EngineFixed.PIECE_VALUES p =
  10 * signed_value Engine.PIECE_VALUES p +
  900 * (1 * king_of White p + (-1) * king_of Black p).
Proof.
  destruct p as [ty c]. unfold signed_value, piece_value, king_of, is_king;
    cbn [type color].
  by_key ty; [destruct c; reflexivity ..|].
  rewrite Hu1, Hu2, Hk. destruct c; reflexivity.
Qed.

Lemma material_tenfold (grid : Board) :
  material EngineFixed.PIECE_VALUES grid =
  10 * material Engine.PIECE_VALUES grid +
  900 * (kings_of White grid - kings_of Black grid).
Proof.
  unfold material, kings_of.
  rewrite (sum_squares_all _ _ grid signed_value_tenfold).
  rewrite sum_squares_linear. f_equal. f_equal.
  change (sum_squares (fun p => 1 * king_of White p + (-1) * king_of Black p) grid
          = sum_squares (king_of White) grid - sum_squares (king_of Black) grid).
  rewrite sum_squares_linear. lia.
Qed.

Lemma evaluateGrid_material (grid : Board) :
  grid8x8 grid -> all_listed Engine.PIECE_VALUES grid = true ->
  Engine.evaluateGrid grid = Some (Num (material Engine.PIECE_VALUES grid)).
Proof.
  intros H8 Hl. apply scanBoard_sum; [exact H8|].
  exact (every_piece_adds _ _ _ grid contribution_listed Hl).
Qed.

Lemma evaluateGrid_fixed_material (grid : Board) :
  grid8x8 grid -> all_listed EngineFixed.PIECE_VALUES grid = true ->
  EngineFixed.evaluateGrid grid =
  Some (Num (material EngineFixed.PIECE_VALUES grid)).
Proof.
  intros H8 Hl. apply scanBoard_sum; [exact H8|].
  exact (every_piece_adds _ _ _ grid contribution_fixed Hl).
Qed.


Lemma kings_only_listed (grid : Board) :
  kings_only grid = true -> all_listed Engine.PIECE_VALUES grid = true.
Proof.
  apply every_piece_mono. intros [ty c]; unfold is_king, listed; cbn [type].
  intros Hk. apply String.eqb_eq in Hk. now subst.
Qed.

Lemma kings_only_material (grid : Board) :
  kings_only grid = true -> material Engine.PIECE_VALUES grid = 0.
Proof.
  intros Hk. unfold material.
  rewrite (sum_squares_ext is_king _ (fun _ => 0) grid);
    [apply sum_squares_zero| |exact Hk].
  intros [ty c]; unfold is_king; cbn [type]. intros E.
  apply String.eqb_eq in E; subst. now destruct c.
Qed.

Lemma empty_listed (table : Table) (grid : Board) :
  empty_grid grid = true -> all_listed table grid = true.
Proof. apply every_piece_mono. discriminate. Qed.

(** The evaluator run on the game object: it reads the grid and leaves the
    object as it was. *)
Lemma evaluateBoard_run {Game} `{Chess Game} (g : Game) (s : number) :
  Engine.evaluateGrid (board g) = Some s -> Engine.evaluateBoard g = Ret s g.
Proof.
  intros E. unfold Engine.evaluateBoard, bind, gets. now rewrite E.
Qed.

Lemma evaluateBoard_fixed_run {Game} `{Chess Game} (g : Game) (s : number) :
  EngineFixed.evaluateGrid (board g) = Some s ->
  EngineFixed.evaluateBoard g = Ret s g.
Proof.
  intros E. unfold EngineFixed.evaluateBoard, bind, gets. now rewrite E.
Qed.

(** ** Colour swap *)

Section Swap.
Variable cell : Piece -> number.
Variable ok : Piece -> bool.
Hypothesis cell_swap :
  forall p, ok p = true ->
    cell (mkPiece (type p) (swap_color (color p))) = neg (cell p).

Lemma scanRow_swap (r : list (option Piece)) (idxs : list nat) (tot : number) :
  forallb (fun sq => match sq with Some p => ok p | None => true end) r = true ->
  fold_left
    (fun tot col =>
       square_step cell tot
         (nth_error
            (map (option_map (fun p => mkPiece (type p) (swap_color (color p)))) r)
            col))
    idxs (neg tot) =
  neg (fold_left (fun tot col => square_step cell tot (nth_error r col)) idxs tot).
Proof.
  intros Hok. rewrite forallb_forall in Hok.
  revert tot; induction idxs as [|i idxs IH]; intros tot; simpl; [reflexivity|].
  rewrite nth_error_map.
  destruct (nth_error r i) as [[p|]|] eqn:Ei; simpl; try apply IH.
  rewrite (cell_swap p (Hok _ (nth_error_In _ _ Ei))), <- neg_add. apply IH.
Qed.

Lemma scanBoard_swap (grid : Board) :
  every_piece ok grid = true ->
  scanBoard cell (colorSwap grid) = option_map neg (scanBoard cell grid).
Proof.
  intros Hok. unfold every_piece in Hok. rewrite forallb_forall in Hok.
  rewrite !scanBoard_unfold.
  change (Some (Num 0)) with (option_map neg (Some (Num 0))) at 1.
  generalize (Some (Num 0)) as acc. generalize (seq 0 8) as idxs.
  induction idxs as [|i idxs IH]; intros acc; simpl; [reflexivity|].
  rewrite <- IH. f_equal. unfold colorSwap. rewrite nth_error_map.
  destruct acc as [tot|]; simpl; [|reflexivity].
  destruct (nth_error grid i) as [r|] eqn:Ei; simpl; [|reflexivity].
  f_equal. rewrite !scanRow_unfold.
  apply scanRow_swap. exact (Hok _ (nth_error_In _ _ Ei)).
Qed.

End Swap.

Lemma contribution_swap (p : Piece) :
  listed Engine.PIECE_VALUES p = true ->
  Engine.contribution (mkPiece (type p) (swap_color (color p))) =
  neg (Engine.contribution p).
Proof.
  intros Hl. rewrite (contribution_listed p Hl).
  rewrite (contribution_listed (mkPiece (type p) (swap_color (color p)))) by exact Hl.
  unfold signed_value; cbn [type color neg]. f_equal.
  destruct (color p); cbn [swap_color]; lia.
Qed.

Lemma contribution_fixed_swap (p : Piece) :
  listed EngineFixed.PIECE_VALUES p = true ->
  EngineFixed.contribution (mkPiece (type p) (swap_color (color p))) =
  neg (EngineFixed.contribution p).
Proof.
  intros Hl. rewrite (contribution_fixed p Hl).
  rewrite (contribution_fixed (mkPiece (type p) (swap_color (color p)))) by exact Hl.
  unfold signed_value; cbn [type color neg]. f_equal.
  destruct (color p); cbn [swap_color]; lia.
Qed.

(** ** The evaluator: the claims *)

(** C5. On every eight by eight grid with pieces of the listed types,
    [evaluateBoard] returns the sum over the occupied squares of the table
    value of the piece, positive for White and negative for Black; the result
    depends on the grid only, not on the side to move; it is [0] on the empty
    board and on a board with the two bare kings; and the game object is left
    as it was. *)
Theorem evaluateBoard_is_material {Game} `{Chess Game} (g : Game) :
  grid8x8 (board g) ->
  (all_listed Engine.PIECE_VALUES (board g) = true ->
   Engine.evaluateBoard g = Ret (Num (material Engine.PIECE_VALUES (board g))) g)
  /\ (all_listed EngineFixed.PIECE_VALUES (board g) = true ->
      EngineFixed.evaluateBoard g =
      Ret (Num (material EngineFixed.PIECE_VALUES (board g))) g)
  /\ (forall g2 : Game, board g2 = board g ->
      (all_listed EngineFixed.PIECE_VALUES (board g) = true ->
       EngineFixed.evaluateBoard g2 =
       Ret (Num (material EngineFixed.PIECE_VALUES (board g))) g2) /\
      (all_listed Engine.PIECE_VALUES (board g) = true ->
       Engine.evaluateBoard g2 =
       Ret (Num (material Engine.PIECE_VALUES (board g))) g2))
  /\ (empty_grid (board g) = true ->
      Engine.evaluateBoard g = Ret (Num 0) g /\
      EngineFixed.evaluateBoard g = Ret (Num 0) g)
  /\ (bare_kings_only (board g) ->
      Engine.evaluateBoard g = Ret (Num 0) g /\
      EngineFixed.evaluateBoard g = Ret (Num 0) g).
Proof.
  intros H8.
  assert (H1 : all_listed Engine.PIECE_VALUES (board g) = true ->
               Engine.evaluateBoard g =
               Ret (Num (material Engine.PIECE_VALUES (board g))) g).
  { intros Hl. apply evaluateBoard_run. now apply evaluateGrid_material. }
  assert (H2 : all_listed EngineFixed.PIECE_VALUES (board g) = true ->
               EngineFixed.evaluateBoard g =
               Ret (Num (material EngineFixed.PIECE_VALUES (board g))) g).
  { intros Hl. apply evaluateBoard_fixed_run.
    now apply evaluateGrid_fixed_material. }
  split; [exact H1|]. split; [exact H2|]. split; [|split].
  - intros g2 Eb. split.
    + intros Hl. apply evaluateBoard_fixed_run. rewrite Eb.
      now apply evaluateGrid_fixed_material.
    + intros Hl. apply evaluateBoard_run. rewrite Eb.
      now apply evaluateGrid_material.
  - intros He. split.
    + rewrite (H1 (empty_listed _ _ He)). unfold material.
      now rewrite (sum_squares_empty _ _ He).
    + rewrite (H2 (empty_listed _ _ He)). unfold material.
      now rewrite (sum_squares_empty _ _ He).
  - intros (Hk & Hw & Hb). split.
    + rewrite (H1 (kings_only_listed _ Hk)).
      now rewrite (kings_only_material _ Hk).
    + rewrite (H2 (all_listed_fixed _ (kings_only_listed _ Hk))),
        material_tenfold.
      rewrite (kings_only_material _ Hk), Hw, Hb. reflexivity.
Qed.

(** C7. On a board with pieces of the listed types, swapping the side of
    every piece negates the score. *)
Theorem evaluate_colorSwap_negates (grid : Board) :
  (all_listed Engine.PIECE_VALUES grid = true ->
   Engine.evaluateGrid (colorSwap grid) =
   option_map neg (Engine.evaluateGrid grid))
  /\ (all_listed EngineFixed.PIECE_VALUES grid = true ->
      EngineFixed.evaluateGrid (colorSwap grid) =
      option_map neg (EngineFixed.evaluateGrid grid)).
Proof.
  split; intros Hl.
  - exact (scanBoard_swap _ _ contribution_swap grid Hl).
  - exact (scanBoard_swap _ _ contribution_fixed_swap grid Hl).
Qed.

(** The grids of the sample rules object are well formed. *)
Lemma toy_grid8x8 (ps : list (Toy.Kind * Color)) : grid8x8 (Toy.grid_of ps).
Proof.
  split; [reflexivity|]. unfold Toy.grid_of.
  apply Forall_forall; intros r Hr. apply in_map_iff in Hr as (i & <- & _).
  reflexivity.
Qed.

Lemma toy_listed (ps : list (Toy.Kind * Color)) :
  all_listed Engine.PIECE_VALUES (Toy.grid_of ps) = true.
Proof.
  unfold all_listed, every_piece, Toy.grid_of.
  apply forallb_forall; intros r Hr. apply in_map_iff in Hr as (i & <- & _).
  apply forallb_forall; intros sq Hsq. apply in_map_iff in Hsq as (j & <- & _).
  destruct (nth_error ps (8 * i + j)) as [[k c]|]; [|reflexivity].
  now destruct k.
Qed.

Lemma toy_board8x8 (g : Toy.Game) : grid8x8 (board g).
Proof. exact (toy_grid8x8 (Toy.pieces_of (Toy.here g))). Qed.

Lemma toy_board_listed (g : Toy.Game) :
  all_listed Engine.PIECE_VALUES (board g) = true.
Proof. exact (toy_listed (Toy.pieces_of (Toy.here g))). Qed.

Lemma toy_board_listed_fixed (g : Toy.Game) :
  all_listed EngineFixed.PIECE_VALUES (board g) = true.
Proof. apply all_listed_fixed, toy_board_listed. Qed.

Lemma evaluate_colorSwap_negates_witness :
  Engine.evaluateGrid (colorSwap (board Toy.start)) = Some (Num (-3)) /\
  EngineFixed.evaluateGrid (colorSwap (board Toy.start)) = Some (Num (-30)).
Proof.
  destruct (evaluate_colorSwap_negates (board Toy.start)) as [H1 H2].
  split; [exact (H1 (toy_board_listed _)) | exact (H2 (toy_board_listed_fixed _))].
Defined.

Lemma evaluateBoard_is_material_witness :
  Engine.evaluateBoard Toy.start = Ret (Num 3) Toy.start /\
  EngineFixed.evaluateBoard Toy.start = Ret (Num 30) Toy.start /\
  EngineFixed.evaluateBoard Toy.blank = Ret (Num 0) Toy.blank /\
  EngineFixed.evaluateBoard Toy.stuck = Ret (Num 0) Toy.stuck.
Proof.
  destruct (evaluateBoard_is_material Toy.start (toy_board8x8 _))
    as (H1 & H2 & _).
  destruct (evaluateBoard_is_material Toy.blank (toy_board8x8 _))
    as (_ & _ & _ & H3 & _).
  destruct (evaluateBoard_is_material Toy.stuck (toy_board8x8 _))
    as (_ & _ & _ & _ & H4).
  split; [exact (H1 (toy_board_listed _))|].
  split; [exact (H2 (toy_board_listed_fixed _))|].
  split; [exact (proj2 (H3 eq_refl))|].
  refine (proj2 (H4 _)). repeat split.
Defined.

(** C8, as the code has it.  The second table is ten times the first on every
    piece type but the king, which counts 0 in the first and 900 in the
    second; so on every board the second evaluator returns ten times the
    first plus 900 for each king White has more than Black, and exactly ten
    times the first when both sides have the same number of kings. *)
Theorem evaluators_tenfold_up_to_kings (grid : Board) :
  grid8x8 grid -> all_listed Engine.PIECE_VALUES grid = true ->
  (forall ty, ty <> "k" ->
     piece_value EngineFixed.PIECE_VALUES ty =
     10 * piece_value Engine.PIECE_VALUES ty)
  /\ (exists s1 s2 : Z,
        Engine.evaluateGrid grid = Some (Num s1) /\
        EngineFixed.evaluateGrid grid = Some (Num s2) /\
        s2 = 10 * s1 + 900 * (kings_of White grid - kings_of Black grid))
  /\ (kings_of White grid = kings_of Black grid -> scaled_by 10 grid).
Proof.
  intros H8 Hl. split; [|split].
  - intros ty Hty. unfold piece_value.
    by_key ty; try reflexivity; [congruence|]. now rewrite Hu1, Hu2.
  - exists (material Engine.PIECE_VALUES grid),
           (material EngineFixed.PIECE_VALUES grid).
    split; [now apply evaluateGrid_material|].
    split; [apply evaluateGrid_fixed_material; [exact H8|];
            now apply all_listed_fixed | apply material_tenfold].
  - intros Hk.
    exists (material Engine.PIECE_VALUES grid),
           (material EngineFixed.PIECE_VALUES grid).
    split; [now apply evaluateGrid_material|].
    split; [apply evaluateGrid_fixed_material; [exact H8|];
            now apply all_listed_fixed|].
    rewrite material_tenfold, Hk, Z.sub_diag, Z.mul_0_r, Z.add_0_r.
    rewrite inject_Z_mult. reflexivity.
Qed.

Lemma lone_king_grid8x8 : grid8x8 lone_king.
Proof. split; [reflexivity|]. repeat constructor. Qed.

Lemma bare_kings_grid8x8 : grid8x8 bare_kings.
Proof. split; [reflexivity|]. repeat constructor. Qed.

Lemma evaluators_tenfold_up_to_kings_witness :
  scaled_by 10 bare_kings /\
  exists s1 s2 : Z,
    Engine.evaluateGrid lone_king = Some (Num s1) /\
    EngineFixed.evaluateGrid lone_king = Some (Num s2) /\
    s2 = 10 * s1 + 900 * (kings_of White lone_king - kings_of Black lone_king).
Proof.
  split.
  - exact (proj2 (proj2 (evaluators_tenfold_up_to_kings bare_kings
                           bare_kings_grid8x8 eq_refl)) eq_refl).
  - exact (proj1 (proj2 (evaluators_tenfold_up_to_kings lone_king
                           lone_king_grid8x8 eq_refl))).
Defined.

(** C8 as stated fails: on the board with a lone white king the first
    evaluator returns 0 and the second 900, and 900 is no multiple of 0; the
    king entries of the tables are 0 and 900. *)
Lemma tables_not_proportional :
  grid8x8 lone_king /\
  all_listed Engine.PIECE_VALUES lone_king = true /\
  Engine.evaluateGrid lone_king = Some (Num 0) /\
  EngineFixed.evaluateGrid lone_king = Some (Num 900) /\
  piece_value Engine.PIECE_VALUES "k" = 0 /\
  piece_value EngineFixed.PIECE_VALUES "k" = 900 /\
  ~ (exists c : Q, scaled_by c lone_king).
Proof.
  split; [exact lone_king_grid8x8|].
  do 5 (split; [reflexivity|]).
  intros (c & s1 & s2 & E1 & E2 & Hc).
  vm_compute in E1, E2. injection E1 as <-. injection E2 as <-.
  rewrite Qmult_0_r in Hc. discriminate Hc.
Qed.

(** ** A piece type that the table does not list *)

(** In the depth-parameterised engine a piece of a type that the table
    object has nothing under adds [NaN]. *)
Lemma absent_adds_NaN (p : Piece) :
  listed Engine.PIECE_VALUES p = false -> plain p = true ->
  Engine.contribution p = NaN.
Proof.
  unfold listed, Engine.contribution. intros Hl _.
  destruct (lookup Engine.PIECE_VALUES (type p)); [|discriminate].
  now destruct (is_w (color p)).
Qed.




(** ** The order on scores *)

Ltac split_leb :=
  repeat match goal with
    | H : context [Z.leb ?x ?y] |- _ => destruct (Z.leb_spec x y)
    | |- context [Z.leb ?x ?y] => destruct (Z.leb_spec x y)
    | H : context [Z.ltb ?x ?y] |- _ => destruct (Z.ltb_spec x y)
    | |- context [Z.ltb ?x ?y] => destruct (Z.ltb_spec x y)
    end.

(** Case analysis on every score in sight, then linear arithmetic. *)
Ltac order_crush :=
  unfold real, clamp, Math_max, Math_min in *;
  repeat match goal with
    | n : number |- _ => destruct n; cbn in *; try congruence
    end;
  cbn in *; repeat (progress (split_leb; cbn in *));
  repeat match goal with
    | H : Num _ = Num _ |- _ => injection H as H
    end;
  try congruence; try lia; try (f_equal; lia).

Lemma real_max (a c : number) : real a -> real c -> real (Math_max a c).
Proof. intros; order_crush. Qed.

Lemma real_min (a c : number) : real a -> real c -> real (Math_min a c).
Proof. intros; order_crush. Qed.

Lemma lt_real_l (a c : number) : lt a c = true -> real a.
Proof. intros; order_crush. Qed.

Lemma lt_real_r (a c : number) : lt a c = true -> real c.
Proof. intros; order_crush. Qed.

Lemma not_le_lt (a c : number) :
  real a -> real c -> le c a = false -> lt a c = true.
Proof. intros; order_crush. Qed.

Lemma le_max_l (a c : number) : real a -> real c -> le a (Math_max a c) = true.
Proof. intros; order_crush. Qed.

Lemma le_min_l (a c : number) : real a -> real c -> le (Math_min a c) a = true.
Proof. intros; order_crush. Qed.

Lemma le_trans (a c d : number) :
  le a c = true -> le c d = true -> le a d = true.
Proof. intros; order_crush. Qed.

Lemma le_refl (a : number) : real a -> le a a = true.
Proof. intros; order_crush. Qed.

Lemma Math_max_assoc (a c d : number) :
  Math_max (Math_max a c) d = Math_max a (Math_max c d).
Proof. order_crush. Qed.

Lemma Math_min_assoc (a c d : number) :
  Math_min (Math_min a c) d = Math_min a (Math_min c d).
Proof. order_crush. Qed.

Lemma max_NInf_r (a : number) : real a -> Math_max a NInf = a.
Proof. intros; order_crush. Qed.

Lemma min_PInf_r (a : number) : real a -> Math_min a PInf = a.
Proof. intros; order_crush. Qed.

Lemma clamp_full_window (x : number) : real x -> clamp NInf PInf x = x.
Proof. intros; order_crush. Qed.

Lemma real_clamp (alpha beta x : number) :
  real alpha -> real beta -> real x -> real (clamp alpha beta x).
Proof. intros; order_crush. Qed.

(** In a proper window it does not matter from which side one cuts first. *)
Lemma clamp_min_max (alpha beta x : number) :
  lt alpha beta = true -> real x ->
  clamp alpha beta x = Math_min beta (Math_max alpha x).
Proof. intros; order_crush. Qed.

(** Cutting a maximum. *)
Lemma clamp_max (alpha beta M e : number) :
  real alpha -> real beta -> real M -> real e ->
  clamp alpha beta (Math_max M e) =
  Math_max (clamp alpha beta M) (Math_min beta e).
Proof. intros; order_crush. Qed.

(** Cutting a minimum, from the other side. *)
Lemma clamp_min (alpha beta M e : number) :
  real alpha -> real beta -> real M -> real e ->
  Math_min beta (Math_max alpha (Math_min M e)) =
  Math_min (Math_min beta (Math_max alpha M)) (Math_max alpha e).
Proof. intros; order_crush. Qed.

(** While the maximizing loop runs, its [alpha] is the cut running best. *)
Lemma clamp_running_max (alpha beta M : number) :
  lt (Math_max alpha M) beta = true ->
  clamp alpha beta M = Math_max alpha M.
Proof. intros; order_crush. Qed.

Lemma clamp_running_min (alpha beta M : number) :
  lt alpha (Math_min beta M) = true ->
  Math_min beta (Math_max alpha M) = Math_min beta M.
Proof. intros; order_crush. Qed.

(** At a cutoff the cut value sits on the bound, and stays there. *)
Lemma clamp_at_beta (alpha beta M : number) :
  lt alpha beta = true -> real M ->
  (le beta (Math_max alpha M) = true <-> clamp alpha beta M = beta).
Proof. intros; split; intros; order_crush. Qed.

Lemma clamp_at_beta_le (alpha beta M : number) :
  lt alpha beta = true -> real M ->
  (le beta M = true <-> clamp alpha beta M = beta).
Proof. intros; split; intros; order_crush. Qed.

Lemma clamp_at_alpha (alpha beta M : number) :
  lt alpha beta = true -> real M ->
  (le (Math_min beta M) alpha = true <-> clamp alpha beta M = alpha).
Proof. intros; split; intros; order_crush. Qed.

Lemma clamp_at_alpha_le (alpha beta M : number) :
  lt alpha beta = true -> real M ->
  (le M alpha = true <-> clamp alpha beta M = alpha).
Proof. intros; split; intros; order_crush. Qed.

(** ** Values: the cutoff does not change the result *)

Section ValueFacts.
Context {Game : Type} `{Chess Game}.
Variable score : Game -> number.
Hypothesis score_real : forall g, real (score g).

Lemma maxOver_real (child : Game -> number) (g : Game) (ms : list string)
    (start : number) :
  (forall g', real (child g')) -> real start ->
  real (maxOver child g ms start) /\ le start (maxOver child g ms start) = true.
Proof.
  intros Hc. revert start. unfold maxOver.
  induction ms as [|m ms IH]; intros start Hs; simpl.
  - split; [exact Hs | now apply le_refl].
  - destruct (IH (Math_max start (child (after g m)))) as [Hr Hle].
    { now apply real_max. }
    split; [exact Hr|].
    eapply le_trans; [|exact Hle]. now apply le_max_l.
Qed.

Lemma minOver_real (child : Game -> number) (g : Game) (ms : list string)
    (start : number) :
  (forall g', real (child g')) -> real start ->
  real (minOver child g ms start) /\ le (minOver child g ms start) start = true.
Proof.
  intros Hc. revert start. unfold minOver.
  induction ms as [|m ms IH]; intros start Hs; simpl.
  - split; [exact Hs | now apply le_refl].
  - destruct (IH (Math_min start (child (after g m)))) as [Hr Hle].
    { now apply real_min. }
    split; [exact Hr|].
    eapply le_trans; [exact Hle|]. now apply le_min_l.
Qed.

Section Loops.
Variable cab : Game -> number -> number -> number.
Variable full : Game -> number.
Hypothesis full_real : forall g, real (full g).
Hypothesis cab_real : forall g a c, lt a c = true -> real (cab g a c).
Hypothesis cab_clamp :
  forall g a c, lt a c = true -> clamp a c (cab g a c) = clamp a c (full g).

Lemma abMax_clamp (g : Game) (alpha beta : number) (ms : list string) :
  lt alpha beta = true ->
  forall M T : number,
    real M -> real T ->
    lt (Math_max alpha M) beta = true ->
    clamp alpha beta M = clamp alpha beta T ->
    real (abMax cab g ms M (Math_max alpha M) beta) /\
    clamp alpha beta (abMax cab g ms M (Math_max alpha M) beta) =
    clamp alpha beta (maxOver full g ms T).
Proof.
  intros Hw.
  pose proof (lt_real_l _ _ Hw) as Ha. pose proof (lt_real_r _ _ Hw) as Hb.
  induction ms as [|m ms IH]; intros M T HM HT Hrun Hinv.
  - simpl. split; [exact HM | exact Hinv].
  - cbn [abMax maxOver fold_left].
    set (e := cab (after g m) (Math_max alpha M) beta).
    set (t := full (after g m)).
    assert (He : real e) by (apply cab_real; exact Hrun).
    assert (Ht : real t) by apply full_real.
    assert (Hstep : clamp alpha beta (Math_max M e) =
                    clamp alpha beta (Math_max T t)).
    { rewrite !clamp_max by assumption. rewrite <- Hinv.
      rewrite (clamp_running_max _ _ _ Hrun).
      exact (cab_clamp (after g m) _ _ Hrun). }
    rewrite Math_max_assoc.
    destruct (le beta (Math_max alpha (Math_max M e))) eqn:Hcut.
    + split; [now apply real_max|].
      assert (HM' : real (Math_max M e)) by now apply real_max.
      assert (HT' : real (Math_max T t)) by now apply real_max.
      destruct (maxOver_real full g ms (Math_max T t) full_real HT')
        as [Hr Hle].
      pose proof (proj1 (clamp_at_beta alpha beta _ Hw HM') Hcut) as Hm.
      rewrite Hm. symmetry. apply (clamp_at_beta_le alpha beta _ Hw Hr).
      eapply le_trans; [|exact Hle].
      apply (clamp_at_beta_le alpha beta _ Hw HT'). now rewrite <- Hstep.
    + apply IH; try (now apply real_max); try exact Hstep.
      apply not_le_lt; [|exact Hb|exact Hcut].
      apply real_max; [exact Ha | now apply real_max].
Qed.

Lemma abMin_clamp (g : Game) (alpha beta : number) (ms : list string) :
  lt alpha beta = true ->
  forall M T : number,
    real M -> real T ->
    lt alpha (Math_min beta M) = true ->
    clamp alpha beta M = clamp alpha beta T ->
    real (abMin cab g ms M alpha (Math_min beta M)) /\
    clamp alpha beta (abMin cab g ms M alpha (Math_min beta M)) =
    clamp alpha beta (minOver full g ms T).
Proof.
  intros Hw.
  pose proof (lt_real_l _ _ Hw) as Ha. pose proof (lt_real_r _ _ Hw) as Hb.
  induction ms as [|m ms IH]; intros M T HM HT Hrun Hinv.
  - simpl. split; [exact HM | exact Hinv].
  - cbn [abMin minOver fold_left].
    set (e := cab (after g m) alpha (Math_min beta M)).
    set (t := full (after g m)).
    assert (He : real e) by (apply cab_real; exact Hrun).
    assert (Ht : real t) by apply full_real.
    assert (Hstep : clamp alpha beta (Math_min M e) =
                    clamp alpha beta (Math_min T t)).
    { rewrite !(clamp_min_max alpha beta) by
        (try exact Hw; now apply real_min).
      rewrite !clamp_min by assumption.
      rewrite <- !(clamp_min_max alpha beta) by assumption.
      rewrite <- Hinv.
      rewrite (clamp_min_max alpha beta M Hw HM).
      rewrite (clamp_running_min _ _ _ Hrun).
      pose proof (cab_clamp (after g m) _ _ Hrun) as Hc.
      rewrite !(clamp_min_max alpha (Math_min beta M)) in Hc by assumption.
      exact Hc. }
    rewrite Math_min_assoc.
    destruct (le (Math_min beta (Math_min M e)) alpha) eqn:Hcut.
    + split; [now apply real_min|].
      assert (HM' : real (Math_min M e)) by now apply real_min.
      assert (HT' : real (Math_min T t)) by now apply real_min.
      destruct (minOver_real full g ms (Math_min T t) full_real HT')
        as [Hr Hle].
      pose proof (proj1 (clamp_at_alpha alpha beta _ Hw HM') Hcut) as Hm.
      rewrite Hm. symmetry. apply (clamp_at_alpha_le alpha beta _ Hw Hr).
      eapply le_trans; [exact Hle|].
      apply (clamp_at_alpha_le alpha beta _ Hw HT'). now rewrite <- Hstep.
    + apply IH; try (now apply real_min); try exact Hstep.
      apply not_le_lt; [exact Ha| |exact Hcut].
      apply real_min; [exact Hb | now apply real_min].
Qed.

End Loops.

Lemma exhaustive_real (d : nat) (g : Game) (mx : bool) :
  real (exhaustive score d g mx).
Proof.
  revert g mx; induction d as [|d IH]; intros g mx; simpl;
    [apply score_real|].
  destruct (isGameOver g); [apply score_real|].
  destruct mx.
  - apply maxOver_real; [intros; apply IH | discriminate].
  - apply minOver_real; [intros; apply IH | discriminate].
Qed.

(** In every proper window the value with the cutoff and the exhaustive
    value agree once both are cut to the window. *)
Lemma alphabeta_clamp (d : nat) :
  forall (g : Game) (alpha beta : number) (mx : bool),
    lt alpha beta = true ->
    real (alphabeta score d g alpha beta mx) /\
    clamp alpha beta (alphabeta score d g alpha beta mx) =
    clamp alpha beta (exhaustive score d g mx).
Proof.
  induction d as [|d IH]; intros g alpha beta mx Hw; simpl.
  - split; [apply score_real | reflexivity].
  - destruct (isGameOver g); [split; [apply score_real | reflexivity]|].
    pose proof (lt_real_l _ _ Hw) as Ha. pose proof (lt_real_r _ _ Hw) as Hb.
    destruct mx.
    + rewrite <- (max_NInf_r alpha Ha) at 1 3.
      apply (abMax_clamp (fun g' a c => alphabeta score d g' a c false)
                         (fun g' => exhaustive score d g' false));
        try discriminate; try exact Hw; try reflexivity.
      * intros; apply exhaustive_real.
      * intros g' a c Hac. apply (IH g' a c false Hac).
      * intros g' a c Hac. apply (IH g' a c false Hac).
      * now rewrite (max_NInf_r alpha Ha).
    + rewrite <- (min_PInf_r beta Hb) at 1 3.
      apply (abMin_clamp (fun g' a c => alphabeta score d g' a c true)
                         (fun g' => exhaustive score d g' true));
        try discriminate; try exact Hw; try reflexivity.
      * intros; apply exhaustive_real.
      * intros g' a c Hac. apply (IH g' a c true Hac).
      * intros g' a c Hac. apply (IH g' a c true Hac).
      * now rewrite (min_PInf_r beta Hb).
Qed.

(** From the root window the two values are equal. *)
Lemma alphabeta_exhaustive (d : nat) (g : Game) (mx : bool) :
  alphabeta score d g NInf PInf mx = exhaustive score d g mx.
Proof.
  destruct (alphabeta_clamp d g NInf PInf mx eq_refl) as [Hr Hc].
  rewrite (clamp_full_window _ Hr) in Hc.
  now rewrite (clamp_full_window _ (exhaustive_real d g mx)) in Hc.
Qed.

End ValueFacts.

(** ** Running the search on the game object *)

Section Frame.
Context {Game : Type} `{Chess Game}.
Variable evaluateBoard : M Game number.

(** [undo] takes back the move just made. *)
Hypothesis undo_move : forall g m g', move g m = Some g' -> undo g' = g.
Hypothesis evaluate_frame :
  forall g s g', evaluateBoard g = Ret s g' -> g' = g.

Lemma maxLoop_frame child (ms : list string) :
  (forall a c, restores (child a c)) ->
  forall M a beta, restores (Search.maxLoop child ms M a beta).
Proof.
  intros Hc. induction ms as [|m ms IH]; intros M a beta g v g' Hrun.
  - now inversion Hrun.
  - cbn [Search.maxLoop] in Hrun. unfold bind, game_move, game_undo in Hrun.
    destruct (move g m) as [g1|] eqn:Em; [|discriminate].
    destruct (child a beta g1) as [e g2| |] eqn:Ec; try discriminate.
    apply Hc in Ec; subst g2. rewrite (undo_move _ _ _ Em) in Hrun.
    destruct (le beta (Math_max a e)); [now inversion Hrun|].
    exact (IH _ _ _ _ _ _ Hrun).
Qed.

Lemma minLoop_frame child (ms : list string) :
  (forall a c, restores (child a c)) ->
  forall M a beta, restores (Search.minLoop child ms M a beta).
Proof.
  intros Hc. induction ms as [|m ms IH]; intros M a beta g v g' Hrun.
  - now inversion Hrun.
  - cbn [Search.minLoop] in Hrun. unfold bind, game_move, game_undo in Hrun.
    destruct (move g m) as [g1|] eqn:Em; [|discriminate].
    destruct (child a beta g1) as [e g2| |] eqn:Ec; try discriminate.
    apply Hc in Ec; subst g2. rewrite (undo_move _ _ _ Em) in Hrun.
    destruct (le (Math_min beta e) a); [now inversion Hrun|].
    exact (IH _ _ _ _ _ _ Hrun).
Qed.

(** Whenever [minimax] returns, at any depth and from any window, every
    move it made has been taken back. *)
Lemma minimax_frame (fuel : nat) :
  forall depth alpha beta mx,
    restores (Search.minimax evaluateBoard fuel depth alpha beta mx).
Proof.
  induction fuel as [|fuel IH]; intros depth alpha beta mx g v g' Hrun.
  - discriminate.
  - cbn [Search.minimax] in Hrun. unfold bind, gets in Hrun.
    destruct ((depth =? 0) || isGameOver g);
      [exact (evaluate_frame _ _ _ Hrun)|].
    destruct mx.
    + eapply maxLoop_frame; [|exact Hrun]. intros a c. apply IH.
    + eapply minLoop_frame; [|exact Hrun]. intros a c. apply IH.
Qed.

End Frame.

Section Run.
Context {Game : Type} `{Chess Game}.
Variable evaluateBoard : M Game number.
Variable score : Game -> number.

(** The laws of the rules object: a listed move can be made, and [undo]
    takes back the move just made. *)
Hypothesis legal_move : forall g m, In m (moves g) -> move g m <> None.
Hypothesis undo_move : forall g m g', move g m = Some g' -> undo g' = g.
Hypothesis evaluate_score : forall g, evaluateBoard g = Ret (score g) g.

Lemma move_after (g : Game) (m : string) :
  In m (moves g) -> move g m = Some (after g m).
Proof.
  intros Hin. unfold after. pose proof (legal_move g m Hin).
  now destruct (move g m).
Qed.

Lemma undo_after (g : Game) (m : string) :
  In m (moves g) -> undo (after g m) = g.
Proof. intros Hin. exact (undo_move _ _ _ (move_after g m Hin)). Qed.

Lemma maxLoop_run child cab (g : Game) (ms : list string) :
  (forall g' a c, child a c g' = Ret (cab g' a c) g') ->
  incl ms (moves g) ->
  forall M a beta,
    Search.maxLoop child ms M a beta g = Ret (abMax cab g ms M a beta) g.
Proof.
  intros Hc. induction ms as [|m ms IH]; intros Hin M a beta.
  - reflexivity.
  - cbn [Search.maxLoop abMax]. unfold bind, game_move, game_undo.
    rewrite (move_after g m (Hin m (or_introl eq_refl))), Hc.
    rewrite (undo_after g m (Hin m (or_introl eq_refl))).
    destruct (le beta (Math_max a (cab (after g m) a beta))); [reflexivity|].
    apply IH. intros x Hx. apply Hin. now right.
Qed.

Lemma minLoop_run child cab (g : Game) (ms : list string) :
  (forall g' a c, child a c g' = Ret (cab g' a c) g') ->
  incl ms (moves g) ->
  forall M a beta,
    Search.minLoop child ms M a beta g = Ret (abMin cab g ms M a beta) g.
Proof.
  intros Hc. induction ms as [|m ms IH]; intros Hin M a beta.
  - reflexivity.
  - cbn [Search.minLoop abMin]. unfold bind, game_move, game_undo.
    rewrite (move_after g m (Hin m (or_introl eq_refl))), Hc.
    rewrite (undo_after g m (Hin m (or_introl eq_refl))).
    destruct (le (Math_min beta (cab (after g m) a beta)) a); [reflexivity|].
    apply IH. intros x Hx. apply Hin. now right.
Qed.

Lemma fullMaxLoop_run child full (g : Game) (ms : list string) :
  (forall g', child g' = Ret (full g') g') ->
  incl ms (moves g) ->
  forall M, Search.fullMaxLoop child ms M g = Ret (maxOver full g ms M) g.
Proof.
  intros Hc. induction ms as [|m ms IH]; intros Hin M.
  - reflexivity.
  - cbn [Search.fullMaxLoop maxOver fold_left].
    unfold bind, game_move, game_undo.
    rewrite (move_after g m (Hin m (or_introl eq_refl))), Hc.
    rewrite (undo_after g m (Hin m (or_introl eq_refl))).
    apply IH. intros x Hx. apply Hin. now right.
Qed.

Lemma fullMinLoop_run child full (g : Game) (ms : list string) :
  (forall g', child g' = Ret (full g') g') ->
  incl ms (moves g) ->
  forall M, Search.fullMinLoop child ms M g = Ret (minOver full g ms M) g.
Proof.
  intros Hc. induction ms as [|m ms IH]; intros Hin M.
  - reflexivity.
  - cbn [Search.fullMinLoop minOver fold_left].
    unfold bind, game_move, game_undo.
    rewrite (move_after g m (Hin m (or_introl eq_refl))), Hc.
    rewrite (undo_after g m (Hin m (or_introl eq_refl))).
    apply IH. intros x Hx. apply Hin. now right.
Qed.

Lemma to_nat_pred (depth : Z) :
  0 <= depth -> (depth =? 0) = false ->
  Z.to_nat depth = S (Z.to_nat (depth - 1)).
Proof. intros H0 Hz. apply Z.eqb_neq in Hz. lia. Qed.

(** At a depth that is a natural number, and with one unit of fuel per
    ply and one more, [minimax] returns the value of the position and leaves
    the game object as it was. *)
Lemma minimax_run (fuel : nat) :
  forall depth g alpha beta mx,
    0 <= depth < Z.of_nat fuel ->
    Search.minimax evaluateBoard fuel depth alpha beta mx g =
    Ret (alphabeta score (Z.to_nat depth) g alpha beta mx) g.
Proof.
  induction fuel as [|fuel IH]; intros depth g alpha beta mx Hd; [lia|].
  cbn [Search.minimax]. unfold bind, gets.
  destruct (depth =? 0) eqn:Ez.
  - apply Z.eqb_eq in Ez; subst. apply evaluate_score.
  - rewrite (to_nat_pred depth (proj1 Hd) Ez). cbn [orb alphabeta].
    destruct (isGameOver g); [apply evaluate_score|].
    apply Z.eqb_neq in Ez.
    destruct mx.
    + apply maxLoop_run; [|apply incl_refl].
      intros g' a c. apply IH. lia.
    + apply minLoop_run; [|apply incl_refl].
      intros g' a c. apply IH. lia.
Qed.

Lemma fullMinimax_run (fuel : nat) :
  forall depth g mx,
    0 <= depth < Z.of_nat fuel ->
    Search.fullMinimax evaluateBoard fuel depth mx g =
    Ret (exhaustive score (Z.to_nat depth) g mx) g.
Proof.
  induction fuel as [|fuel IH]; intros depth g mx Hd; [lia|].
  cbn [Search.fullMinimax]. unfold bind, gets.
  destruct (depth =? 0) eqn:Ez.
  - apply Z.eqb_eq in Ez; subst. apply evaluate_score.
  - rewrite (to_nat_pred depth (proj1 Hd) Ez). cbn [orb exhaustive].
    destruct (isGameOver g); [apply evaluate_score|].
    apply Z.eqb_neq in Ez.
    destruct mx.
    + apply fullMaxLoop_run; [|apply incl_refl].
      intros g'. apply IH. lia.
    + apply fullMinLoop_run; [|apply incl_refl].
      intros g'. apply IH. lia.
Qed.

End Run.

(** ** The two engines on a rules object that keeps its laws *)

Lemma scanBoard_some cell (grid : Board) :
  grid8x8 grid -> exists s, scanBoard cell grid = Some s.
Proof.
  intros [Hlen _]. rewrite scanBoard_unfold, <- Hlen.
  rewrite (fold_indices0 (row_step cell)).
  clear Hlen. generalize (Num 0) as a.
  induction grid as [|r grid IH]; intros a; cbn [fold_left row_step].
  - now exists a.
  - apply IH.
Qed.

Section EngineFacts.
Context {Game : Type} `{Chess Game}.

(** The laws of the rules object: a listed move can be made; [undo] takes
    back the move just made; the board is eight by eight. *)
Hypothesis legal_move : forall g m, In m (moves g) -> move g m <> None.
Hypothesis undo_move : forall g m g', move g m = Some g' -> undo g' = g.
Hypothesis board_grid : forall g : Game, grid8x8 (board g).

Lemma evaluateBoard_frame : restores (Engine.evaluateBoard (Game := Game)).
Proof.
  intros g s g'. unfold Engine.evaluateBoard, bind, gets.
  destruct (Engine.evaluateGrid (board g)); [|discriminate].
  now inversion 1.
Qed.

Lemma evaluateBoard_fixed_frame :
  restores (EngineFixed.evaluateBoard (Game := Game)).
Proof.
  intros g s g'. unfold EngineFixed.evaluateBoard, bind, gets.
  destruct (EngineFixed.evaluateGrid (board g)); [|discriminate].
  now inversion 1.
Qed.

Lemma evaluateBoard_score (g : Game) :
  Engine.evaluateBoard g = Ret (score_with Engine.evaluateGrid g) g.
Proof.
  unfold score_with.
  destruct (scanBoard_some Engine.contribution _ (board_grid g)) as [s Hs].
  unfold Engine.evaluateGrid. rewrite Hs. now apply evaluateBoard_run.
Qed.

Lemma evaluateBoard_fixed_score (g : Game) :
  EngineFixed.evaluateBoard g = Ret (score_with EngineFixed.evaluateGrid g) g.
Proof.
  unfold score_with.
  destruct (scanBoard_some EngineFixed.contribution _ (board_grid g))
    as [s Hs].
  unfold EngineFixed.evaluateGrid. rewrite Hs.
  now apply evaluateBoard_fixed_run.
Qed.

Lemma score_fixed_material (g : Game) :
  all_listed EngineFixed.PIECE_VALUES (board g) = true ->
  score_with EngineFixed.evaluateGrid g =
  Num (material EngineFixed.PIECE_VALUES (board g)).
Proof.
  intros Hl. unfold score_with.
  now rewrite (evaluateGrid_fixed_material _ (board_grid g) Hl).
Qed.

Lemma score_material (g : Game) :
  all_listed Engine.PIECE_VALUES (board g) = true ->
  score_with Engine.evaluateGrid g =
  Num (material Engine.PIECE_VALUES (board g)).
Proof.
  intros Hl. unfold score_with.
  now rewrite (evaluateGrid_material _ (board_grid g) Hl).
Qed.

(** *** The loop of [getBestMove] *)

Lemma bestLoop_frame (fuel : nat) (depth : Z) (ms : list string) :
  forall bm bv, restores (Engine.bestLoop fuel depth ms bm bv).
Proof.
  induction ms as [|m ms IH]; intros bm bv g r g' Hrun.
  - now inversion Hrun.
  - cbn [Engine.bestLoop] in Hrun.
    unfold bind, game_move, game_undo, gets in Hrun.
    destruct (move g m) as [g1|] eqn:Em; [|discriminate].
    destruct (Engine.minimax fuel (depth - 1) NInf PInf (is_w (turn g1)) g1)
      as [e g2| |] eqn:Ec; try discriminate.
    apply (minimax_frame _ undo_move evaluateBoard_frame) in Ec; subst g2.
    rewrite (undo_move _ _ _ Em) in Hrun.
    destruct (is_w (turn g));
      [destruct (gt e bv) | destruct (lt e bv)];
      exact (IH _ _ _ _ _ Hrun).
Qed.

Lemma bestLoop_fixed_frame (fuel : nat) (mx : bool) (ms : list string) :
  forall bm bv, restores (EngineFixed.bestLoop fuel mx ms bm bv).
Proof.
  induction ms as [|m ms IH]; intros bm bv g r g' Hrun.
  - now inversion Hrun.
  - cbn [EngineFixed.bestLoop] in Hrun.
    unfold bind, game_move, game_undo, gets in Hrun.
    destruct (move g m) as [g1|] eqn:Em; [|discriminate].
    destruct (EngineFixed.minimax fuel (EngineFixed.DEPTH - 1) NInf PInf
                (negb mx) g1) as [e g2| |] eqn:Ec; try discriminate.
    apply (minimax_frame _ undo_move evaluateBoard_fixed_frame) in Ec;
      subst g2.
    rewrite (undo_move _ _ _ Em) in Hrun.
    destruct mx;
      [destruct (gt e bv) | destruct (lt e bv)];
      exact (IH _ _ _ _ _ Hrun).
Qed.

Lemma getBestMove_frame shuffle (fuel : nat) (depth : Z) :
  restores (Engine.getBestMove shuffle fuel depth).
Proof.
  intros g r g' Hrun. unfold Engine.getBestMove, bind, gets, ret in Hrun.
  destruct (List.length (moves g) =? 0)%nat; [now inversion Hrun|].
  destruct (Engine.bestLoop fuel depth (shuffle (moves g)) None
              (if is_w (turn g) then NInf else PInf) g)
    as [best g1| |] eqn:El; try discriminate.
  apply bestLoop_frame in El. now inversion Hrun; subst.
Qed.

Lemma getBestMove_fixed_frame shuffle (fuel : nat) :
  restores (EngineFixed.getBestMove shuffle fuel).
Proof.
  intros g r g' Hrun. unfold EngineFixed.getBestMove, bind, gets, ret in Hrun.
  destruct (List.length (moves g) =? 0)%nat; [now inversion Hrun|].
  destruct (EngineFixed.bestLoop fuel (is_w (turn g)) (shuffle (moves g)) None
              (if is_w (turn g) then NInf else PInf) g)
    as [best g1| |] eqn:El; try discriminate.
  apply bestLoop_fixed_frame in El. now inversion Hrun; subst.
Qed.

Lemma bestLoop_run (fuel : nat) (depth : Z) (g : Game) (ms : list string) :
  1 <= depth <= Z.of_nat fuel ->
  incl ms (moves g) ->
  forall bm bv,
    Engine.bestLoop fuel depth ms bm bv g =
    Ret (bestOf (value_at depth) (is_w (turn g)) g ms bm bv) g.
Proof.
  intros Hd. induction ms as [|m ms IH]; intros Hin bm bv.
  - reflexivity.
  - cbn [Engine.bestLoop bestOf].
    unfold bind, game_move, game_undo, gets.
    rewrite (move_after legal_move g m (Hin m (or_introl eq_refl))).
    unfold Engine.minimax.
    rewrite (minimax_run _ _ legal_move undo_move evaluateBoard_score) by lia.
    rewrite (undo_after legal_move undo_move g m (Hin m (or_introl eq_refl))).
    fold (value_at depth (after g m)).
    assert (Hin' : incl ms (moves g)) by (intros x Hx; apply Hin; now right).
    destruct (is_w (turn g));
      [destruct (gt _ bv) | destruct (lt _ bv)]; now apply IH.
Qed.

Lemma bestLoop_fixed_run (fuel : nat) (mx : bool) (g : Game) (ms : list string) :
  (3 <= fuel)%nat ->
  incl ms (moves g) ->
  forall bm bv,
    EngineFixed.bestLoop fuel mx ms bm bv g =
    Ret (bestOf (value_fixed mx) mx g ms bm bv) g.
Proof.
  intros Hd. induction ms as [|m ms IH]; intros Hin bm bv.
  - reflexivity.
  - cbn [EngineFixed.bestLoop bestOf].
    unfold bind, game_move, game_undo, gets.
    rewrite (move_after legal_move g m (Hin m (or_introl eq_refl))).
    unfold EngineFixed.minimax, EngineFixed.DEPTH.
    rewrite (minimax_run _ _ legal_move undo_move evaluateBoard_fixed_score)
      by lia.
    rewrite (undo_after legal_move undo_move g m (Hin m (or_introl eq_refl))).
    change (Z.to_nat (3 - 1)) with 2%nat.
    fold (value_fixed mx (after g m)).
    assert (Hin' : incl ms (moves g)) by (intros x Hx; apply Hin; now right).
    destruct mx; [destruct (gt _ bv) | destruct (lt _ bv)]; now apply IH.
Qed.

Lemma length_eqb_0 {A} (l : list A) : l <> [] -> (List.length l =? 0)%nat = false.
Proof. now destruct l. Qed.

Lemma getBestMove_run shuffle (fuel : nat) (depth : Z) (g : Game) :
  moves g <> [] -> incl (shuffle (moves g)) (moves g) ->
  1 <= depth <= Z.of_nat fuel ->
  Engine.getBestMove shuffle fuel depth g =
  Ret (or_else
         (fst (bestOf (value_at depth) (is_w (turn g)) g (shuffle (moves g)) None
                      (if is_w (turn g) then NInf else PInf)))
         (at_index (shuffle (moves g)) 0)) g.
Proof.
  intros Hne Hin Hd. unfold Engine.getBestMove, bind, gets, ret.
  rewrite (length_eqb_0 _ Hne). now rewrite (bestLoop_run fuel depth g _ Hd Hin).
Qed.

Lemma getBestMove_fixed_run shuffle (fuel : nat) (g : Game) :
  moves g <> [] -> incl (shuffle (moves g)) (moves g) ->
  (3 <= fuel)%nat ->
  EngineFixed.getBestMove shuffle fuel g =
  Ret (or_else
         (fst (bestOf (value_fixed (is_w (turn g))) (is_w (turn g)) g
                      (shuffle (moves g)) None
                      (if is_w (turn g) then NInf else PInf)))
         (at_index (shuffle (moves g)) 0)) g.
Proof.
  intros Hne Hin Hd. unfold EngineFixed.getBestMove, bind, gets, ret.
  rewrite (length_eqb_0 _ Hne).
  now rewrite (bestLoop_fixed_run fuel _ g _ Hd Hin).
Qed.

Lemma getBestMove_no_moves shuffle (fuel : nat) (depth : Z) (g : Game) :
  moves g = [] ->
  Engine.getBestMove shuffle fuel depth g = Ret null g /\
  EngineFixed.getBestMove shuffle fuel g = Ret null g.
Proof.
  intros He. unfold Engine.getBestMove, EngineFixed.getBestMove, bind, gets.
  now rewrite He.
Qed.

End EngineFacts.

(** *** What the loop of [getBestMove] keeps *)

Section BestOf.
Context {Game : Type} `{Chess Game}.
Variable value : Game -> number.

Lemma bestOf_from (mx : bool) (g : Game) (ms : list string) :
  forall bm bv,
    fst (bestOf value mx g ms bm bv) = bm \/
    exists m, In m ms /\ fst (bestOf value mx g ms bm bv) = Some m.
Proof.
  induction ms as [|m ms IH]; intros bm bv; cbn [bestOf]; [now left|].
  assert (Hnew : forall v,
             fst (bestOf value mx g ms (Some m) v) = bm \/
             exists m0, In m0 (m :: ms) /\
                        fst (bestOf value mx g ms (Some m) v) = Some m0).
  { intros v. right. destruct (IH (Some m) v) as [E | (m0 & Hin & E)].
    - exists m. split; [now left | exact E].
    - exists m0. split; [now right | exact E]. }
  assert (Hold : fst (bestOf value mx g ms bm bv) = bm \/
                 exists m0, In m0 (m :: ms) /\
                            fst (bestOf value mx g ms bm bv) = Some m0).
  { destruct (IH bm bv) as [E | (m0 & Hin & E)]; [now left|].
    right. exists m0. split; [now right | exact E]. }
  destruct mx; [destruct (gt _ bv) | destruct (lt _ bv)]; auto.
Qed.

Lemma lt_le (a c : number) : lt a c = true -> le a c = true.
Proof. intros; order_crush. Qed.

Lemma not_lt_le (a c : number) :
  real a -> real c -> lt c a = false -> le a c = true.
Proof. intros; order_crush. Qed.

Hypothesis value_finite : forall g, exists z, value g = Num z.

Lemma value_real (g : Game) : real (value g).
Proof. destruct (value_finite g) as [z ->]. discriminate. Qed.

(** For White the loop ends on a move of the greatest value. *)
Lemma bestOf_max (g : Game) (ms : list string) :
  forall bm bv, real bv ->
    le bv (snd (bestOf value true g ms bm bv)) = true /\
    (forall m', In m' ms ->
       le (value (after g m')) (snd (bestOf value true g ms bm bv)) = true) /\
    ((fst (bestOf value true g ms bm bv) = bm /\
      snd (bestOf value true g ms bm bv) = bv) \/
     exists m, In m ms /\
       fst (bestOf value true g ms bm bv) = Some m /\
       snd (bestOf value true g ms bm bv) = value (after g m)).
Proof.
  induction ms as [|m ms IH]; intros bm bv Hbv; cbn [bestOf].
  - split; [now apply le_refl|]. split; [intros m' []|now left].
  - pose proof (value_real (after g m)) as Hv. unfold gt.
    destruct (lt bv (value (after g m))) eqn:Hlt.
    + destruct (IH (Some m) (value (after g m)) Hv) as (Hle & Hall & Hres).
      split; [eapply le_trans; [apply lt_le; exact Hlt | exact Hle]|].
      split.
      * intros m' [<- | Hin]; [exact Hle | now apply Hall].
      * right. destruct Hres as [[E1 E2] | (m0 & Hin & E1 & E2)].
        -- exists m. split; [now left | now split].
        -- exists m0. split; [now right | now split].
    + destruct (IH bm bv Hbv) as (Hle & Hall & Hres).
      split; [exact Hle|]. split.
      * intros m' [<- | Hin]; [|now apply Hall].
        eapply le_trans; [|exact Hle]. now apply not_lt_le.
      * destruct Hres as [E | (m0 & Hin & E1 & E2)]; [now left|].
        right. exists m0. split; [now right | now split].
Qed.

End BestOf.

Lemma or_else_member (bm : option string) (ms all : list string) :
  ms <> [] -> incl ms all ->
  (bm = None \/ exists m, In m ms /\ bm = Some m) ->
  exists m, or_else bm (at_index ms 0) = san m /\ In m all.
Proof.
  intros Hne Hin Hbm.
  destruct ms as [|x ms]; [congruence|].
  assert (Hx : exists m, at_index (x :: ms) 0 = san m /\ In m all).
  { exists x. split; [reflexivity | apply Hin; now left]. }
  destruct Hbm as [-> | (m & Hm & ->)]; [exact Hx|].
  unfold or_else. destruct (truthy m); [|exact Hx].
  exists m. split; [reflexivity | now apply Hin].
Qed.

(** *** [getRandomMove] *)

Lemma random_index (random : Q) (n : nat) :
  (0 <= random)%Q -> (random < 1)%Q -> (0 < n)%nat ->
  0 <= Qfloor (random * inject_Z (Z.of_nat n)) < Z.of_nat n.
Proof.
  intros H0 H1 Hn.
  assert (Hpos : (0 < inject_Z (Z.of_nat n))%Q).
  { change 0%Q with (inject_Z 0). rewrite <- Zlt_Qlt. lia. }
  split.
  - apply Z.le_trans with (Qfloor (inject_Z 0)); [rewrite Qfloor_Z; lia|].
    apply Qfloor_resp_le. change (inject_Z 0) with 0%Q.
    apply Qmult_le_0_compat; [exact H0 | now apply Qlt_le_weak].
  - rewrite Zlt_Qlt. eapply Qle_lt_trans; [apply Qfloor_le|].
    rewrite <- (Qmult_1_l (inject_Z (Z.of_nat n))) at 2.
    now apply Qmult_lt_compat_r.
Qed.

Lemma at_index_member (ms : list string) (i : Z) :
  0 <= i < Z.of_nat (List.length ms) ->
  exists m, at_index ms i = san m /\ In m ms.
Proof.
  intros Hi. unfold at_index.
  destruct (Z.ltb_spec i 0); [lia|].
  destruct (nth_error ms (Z.to_nat i)) as [m|] eqn:E.
  - exists m. split; [reflexivity | exact (nth_error_In _ _ E)].
  - apply nth_error_None in E. lia.
Qed.

Lemma getRandomMove_member {Game} `{Chess Game} (random : Q) (g : Game) :
  (0 <= random)%Q -> (random < 1)%Q -> moves g <> [] ->
  exists m, Engine.getRandomMove random g = Ret (san m) g /\ In m (moves g).
Proof.
  intros H0 H1 Hne. unfold Engine.getRandomMove, bind, gets, ret.
  rewrite (length_eqb_0 _ Hne).
  destruct (at_index_member (moves g)
              (Qfloor (random * inject_Z (Z.of_nat (List.length (moves g))))))
    as (m & E & Hin).
  { apply random_index; try assumption.
    destruct (moves g); [congruence | simpl; lia]. }
  exists m. now rewrite E.
Qed.

(** ** The sample rules object keeps the laws *)

Lemma toy_legal (g : Toy.Game) (m : string) :
  In m (moves g) -> move g m <> None.
Proof.
  cbn. unfold Toy.play. generalize (Toy.kids_of (Toy.here g)) as ks.
  induction ks as [|[k t] ks IH]; cbn; [intros []|].
  intros [-> | Hin]; [now rewrite String.eqb_refl|].
  destruct (String.eqb k m); [discriminate | now apply IH].
Qed.

Lemma toy_undo (g : Toy.Game) (m : string) (g' : Toy.Game) :
  move g m = Some g' -> undo g' = g.
Proof.
  cbn. unfold Toy.play.
  destruct (find _ _); [|discriminate].
  intros E; injection E as <-. now destruct g.
Qed.

(** ** The search: the claims *)

Section Claims.
Context {Game : Type} `{Chess Game}.

(** The laws of the rules object: a listed move can be made; [undo] takes
    back the move just made; the board is eight by eight. *)
Hypothesis legal_move : forall g m, In m (moves g) -> move g m <> None.
Hypothesis undo_move : forall g m g', move g m = Some g' -> undo g' = g.
Hypothesis board_grid : forall g : Game, grid8x8 (board g).

(** C1. From the root window [(-Infinity, Infinity)], at every position and
    every depth, [minimax] returns the score that the exhaustive traversal
    without the cutoff returns, and both leave the game object as it was.
    (The pieces are of the listed types, as [chess.js] has them, so that the
    scores are numbers.) *)
Theorem alpha_beta_equals_exhaustive (fuel : nat) (depth : Z) (g : Game)
    (mx : bool) :
  0 <= depth < Z.of_nat fuel ->
  ((forall g' : Game, all_listed Engine.PIECE_VALUES (board g') = true) ->
   exists v,
     Engine.minimax fuel depth NInf PInf mx g = Ret v g /\
     Engine.fullMinimax fuel depth mx g = Ret v g)
  /\ ((forall g' : Game,
         all_listed EngineFixed.PIECE_VALUES (board g') = true) ->
      exists v,
        EngineFixed.minimax fuel depth NInf PInf mx g = Ret v g /\
        EngineFixed.fullMinimax fuel depth mx g = Ret v g).
Proof.
  intros Hd. split.
  - intros Hl.
    exists (exhaustive (score_with Engine.evaluateGrid) (Z.to_nat depth) g mx).
    unfold Engine.minimax, Engine.fullMinimax.
    rewrite (minimax_run _ _ legal_move undo_move
               (evaluateBoard_score board_grid)) by exact Hd.
    rewrite (fullMinimax_run _ _ legal_move undo_move
               (evaluateBoard_score board_grid)) by exact Hd.
    split; [|reflexivity]. f_equal. apply alphabeta_exhaustive.
    intros g'. rewrite (score_material board_grid g' (Hl g')). discriminate.
  - intros Hl.
    exists (exhaustive (score_with EngineFixed.evaluateGrid)
                       (Z.to_nat depth) g mx).
    unfold EngineFixed.minimax, EngineFixed.fullMinimax.
    rewrite (minimax_run _ _ legal_move undo_move
               (evaluateBoard_fixed_score board_grid)) by exact Hd.
    rewrite (fullMinimax_run _ _ legal_move undo_move
               (evaluateBoard_fixed_score board_grid)) by exact Hd.
    split; [|reflexivity]. f_equal. apply alphabeta_exhaustive.
    intros g'. rewrite (score_fixed_material board_grid g' (Hl g')).
    discriminate.
Qed.

(** C2. With no legal move, [getBestMove] and [getRandomMove] return [null];
    with at least one they return a member of the list of legal moves. *)
Theorem moves_offered (shuffle : list string -> list string) (g : Game) :
  Permutation (moves g) (shuffle (moves g)) ->
  (moves g = [] ->
   forall (random : Q) (fuel : nat) (depth : Z),
     Engine.getRandomMove random g = Ret null g /\
     Engine.getBestMove shuffle fuel depth g = Ret null g /\
     EngineFixed.getBestMove shuffle fuel g = Ret null g)
  /\ (moves g <> [] ->
      (forall random : Q, (0 <= random)%Q -> (random < 1)%Q ->
         exists m, Engine.getRandomMove random g = Ret (san m) g /\
                   In m (moves g))
      /\ (forall (fuel : nat) (depth : Z), 1 <= depth <= Z.of_nat fuel ->
            exists m, Engine.getBestMove shuffle fuel depth g = Ret (san m) g /\
                      In m (moves g))
      /\ (forall fuel : nat, (3 <= fuel)%nat ->
            exists m, EngineFixed.getBestMove shuffle fuel g = Ret (san m) g /\
                      In m (moves g))).
Proof.
  intros Hperm.
  assert (Hin : incl (shuffle (moves g)) (moves g)).
  { intros x Hx. apply Permutation_sym in Hperm.
    exact (Permutation_in x Hperm Hx). }
  split.
  - intros He random fuel depth. split.
    + unfold Engine.getRandomMove, bind, gets. now rewrite He.
    + exact (getBestMove_no_moves shuffle fuel depth g He).
  - intros Hne.
    assert (Hne' : shuffle (moves g) <> []).
    { intros E. rewrite E in Hperm. apply Permutation_sym in Hperm.
      now apply Permutation_nil in Hperm. }
    split; [|split].
    + intros random H0 H1. now apply getRandomMove_member.
    + intros fuel depth Hd.
      rewrite (getBestMove_run legal_move undo_move board_grid
                 shuffle fuel depth g Hne Hin Hd).
      destruct (or_else_member
                  (fst (bestOf (value_at depth) (is_w (turn g)) g
                          (shuffle (moves g)) None
                          (if is_w (turn g) then NInf else PInf)))
                  (shuffle (moves g)) (moves g) Hne' Hin) as (m & E & Hm).
      { destruct (bestOf_from (value_at depth) (is_w (turn g)) g
                    (shuffle (moves g)) None
                    (if is_w (turn g) then NInf else PInf)); auto. }
      exists m. now rewrite E.
    + intros fuel Hd.
      rewrite (getBestMove_fixed_run legal_move undo_move board_grid
                 shuffle fuel g Hne Hin Hd).
      destruct (or_else_member
                  (fst (bestOf (value_fixed (is_w (turn g))) (is_w (turn g)) g
                          (shuffle (moves g)) None
                          (if is_w (turn g) then NInf else PInf)))
                  (shuffle (moves g)) (moves g) Hne' Hin) as (m & E & Hm).
      { destruct (bestOf_from (value_fixed (is_w (turn g))) (is_w (turn g)) g
                    (shuffle (moves g)) None
                    (if is_w (turn g) then NInf else PInf)); auto. }
      exists m. now rewrite E.
Qed.

(** C3. Whenever [getBestMove] returns, at any depth, the game object is the
    one it was given: same board, same side to move, same legal moves; the
    same holds of every call of [minimax], whatever its window, so every move
    made during the search has been taken back, cutoff or not.  And at the
    depths the program uses [getBestMove] does return. *)
Theorem getBestMove_leaves_position (shuffle : list string -> list string)
    (g : Game) :
  (forall fuel depth r g',
     Engine.getBestMove shuffle fuel depth g = Ret r g' ->
     g' = g /\ board g' = board g /\ turn g' = turn g /\ moves g' = moves g)
  /\ (forall fuel r g',
        EngineFixed.getBestMove shuffle fuel g = Ret r g' ->
        g' = g /\ board g' = board g /\ turn g' = turn g /\ moves g' = moves g)
  /\ (forall fuel depth alpha beta mx v g',
        Engine.minimax fuel depth alpha beta mx g = Ret v g' -> g' = g)
  /\ (forall fuel depth alpha beta mx v g',
        EngineFixed.minimax fuel depth alpha beta mx g = Ret v g' -> g' = g)
  /\ (Permutation (moves g) (shuffle (moves g)) ->
      (forall (fuel : nat) (depth : Z), 1 <= depth <= Z.of_nat fuel ->
         exists r, Engine.getBestMove shuffle fuel depth g = Ret r g) /\
      (forall fuel : nat, (3 <= fuel)%nat ->
         exists r, EngineFixed.getBestMove shuffle fuel g = Ret r g)).
Proof.
  split; [|split; [|split; [|split]]].
  - intros fuel depth r g' Hrun.
    apply (getBestMove_frame undo_move) in Hrun. now subst.
  - intros fuel r g' Hrun.
    apply (getBestMove_fixed_frame undo_move) in Hrun. now subst.
  - intros fuel depth alpha beta mx v g' Hrun.
    exact (minimax_frame _ undo_move evaluateBoard_frame _ _ _ _ _ _ _ _ Hrun).
  - intros fuel depth alpha beta mx v g' Hrun.
    exact (minimax_frame _ undo_move evaluateBoard_fixed_frame
             _ _ _ _ _ _ _ _ Hrun).
  - intros Hperm.
    assert (Hin : incl (shuffle (moves g)) (moves g)).
    { intros x Hx. apply Permutation_sym in Hperm.
      exact (Permutation_in x Hperm Hx). }
    split.
    + intros fuel depth Hd. destruct (moves g) as [|m0 ms] eqn:Em.
      * exists null. exact (proj1 (getBestMove_no_moves shuffle fuel depth g Em)).
      * assert (Hne : moves g <> []) by (rewrite Em; discriminate).
        rewrite <- Em in Hin.
        rewrite (getBestMove_run legal_move undo_move board_grid
                   shuffle fuel depth g Hne Hin Hd).
        eexists; reflexivity.
    + intros fuel Hd. destruct (moves g) as [|m0 ms] eqn:Em.
      * exists null. exact (proj2 (getBestMove_no_moves shuffle fuel 0 g Em)).
      * assert (Hne : moves g <> []) by (rewrite Em; discriminate).
        rewrite <- Em in Hin.
        rewrite (getBestMove_fixed_run legal_move undo_move board_grid
                   shuffle fuel g Hne Hin Hd).
        eexists; reflexivity.
Qed.

(** C4. With White to move and at least one legal move, whatever order the
    shuffle leaves the moves in, [getBestMove] at depth 1 returns a legal move
    such that the board it leads to evaluates to at least as much as the
    board any legal move leads to.  (The pieces are of the listed types and
    the moves are named by non-empty strings, as [chess.js] names them.) *)
Theorem best_move_depth1_maximal (shuffle : list string -> list string)
    (g : Game) (fuel : nat) :
  (forall g' : Game, all_listed Engine.PIECE_VALUES (board g') = true) ->
  (forall m, In m (moves g) -> m <> "") ->
  Permutation (moves g) (shuffle (moves g)) ->
  turn g = White -> moves g <> [] -> (1 <= fuel)%nat ->
  exists (m : string) (gm : Game) (s : Z),
    Engine.getBestMove shuffle fuel 1 g = Ret (san m) g /\
    In m (moves g) /\
    move g m = Some gm /\
    Engine.evaluateBoard gm = Ret (Num s) gm /\
    forall m' gm', In m' (moves g) -> move g m' = Some gm' ->
      exists s', Engine.evaluateBoard gm' = Ret (Num s') gm' /\ s' <= s.
Proof.
  intros Hl Hsan Hperm Hturn Hne Hfuel.
  assert (Hin : incl (shuffle (moves g)) (moves g)).
  { intros x Hx. apply Permutation_sym in Hperm.
    exact (Permutation_in x Hperm Hx). }
  assert (Hval : forall g' : Game,
             value_at 1 g' = Num (material Engine.PIECE_VALUES (board g'))).
  { intros g'. unfold value_at. cbn [Z.sub Z.add Z.to_nat alphabeta Z.opp].
    exact (score_material board_grid g' (Hl g')). }
  assert (Hfin : forall g' : Game, exists z, value_at 1 g' = Num z).
  { intros g'. rewrite Hval. eauto. }
  rewrite (getBestMove_run legal_move undo_move board_grid
             shuffle fuel 1 g Hne Hin) by lia.
  rewrite Hturn; cbn [is_w].
  destruct (bestOf_max (value_at 1) Hfin g (shuffle (moves g)) None NInf)
    as (_ & Hall & Hres); [discriminate|].
  assert (Hm1 : exists m1, In m1 (shuffle (moves g))).
  { destruct (moves g) as [|m1 ms]; [congruence|].
    exists m1. apply (Permutation_in m1 Hperm). now left. }
  destruct Hm1 as [m1 Hm1].
  destruct Hres as [[_ E2] | (m & Hm & E1 & E2)].
  { specialize (Hall m1 Hm1). rewrite E2 in Hall.
    destruct (Hfin (after g m1)) as [z Hz]. rewrite Hz in Hall.
    discriminate. }
  pose proof (Hin m Hm) as Hmg.
  exists m, (after g m), (material Engine.PIECE_VALUES (board (after g m))).
  rewrite E1. unfold or_else, truthy.
  destruct (String.eqb_spec m ""); [now apply Hsan in Hmg|]. cbn [negb].
  split; [reflexivity|]. split; [exact Hmg|].
  split; [exact (move_after legal_move g m Hmg)|].
  split.
  { rewrite (evaluateBoard_score board_grid).
    now rewrite (score_material board_grid _ (Hl _)). }
  intros m' gm' Hm' Emove.
  exists (material Engine.PIECE_VALUES (board gm')). split.
  { rewrite (evaluateBoard_score board_grid).
    now rewrite (score_material board_grid _ (Hl _)). }
  specialize (Hall m' (Permutation_in m' Hperm Hm')). rewrite E2, !Hval in Hall.
  unfold after in Hall at 1. rewrite Emove in Hall.
  now apply Z.leb_le in Hall.
Qed.

(** C10. [evaluateBoard] returns a score, and at every depth that is a
    natural number (the program supplies 0, 1 and 2) [minimax] returns a
    score: it neither throws nor runs on. *)
Theorem search_and_evaluate_total (g : Game) :
  (exists s, Engine.evaluateBoard g = Ret s g)
  /\ (exists s, EngineFixed.evaluateBoard g = Ret s g)
  /\ forall (fuel : nat) (depth : Z) (alpha beta : number) (mx : bool),
       0 <= depth < Z.of_nat fuel ->
       (exists v, Engine.minimax fuel depth alpha beta mx g = Ret v g) /\
       (exists v, EngineFixed.minimax fuel depth alpha beta mx g = Ret v g).
Proof.
  split; [eexists; apply (evaluateBoard_score board_grid)|].
  split; [eexists; apply (evaluateBoard_fixed_score board_grid)|].
  intros fuel depth alpha beta mx Hd. split; eexists.
  - unfold Engine.minimax.
    apply (minimax_run _ _ legal_move undo_move
             (evaluateBoard_score board_grid)). exact Hd.
  - unfold EngineFixed.minimax.
    apply (minimax_run _ _ legal_move undo_move
             (evaluateBoard_fixed_score board_grid)). exact Hd.
Qed.

End Claims.

(** C6. At depth 0, and at a position where the game is over, [minimax]
    returns exactly what [evaluateBoard] returns there: with pieces of the
    listed types, the material balance of the pieces on the board, with no
    constant for a win or a loss. *)
Theorem minimax_base_case {Game} `{Chess Game} (fuel : nat) (depth : Z)
    (alpha beta : number) (mx : bool) (g : Game) :
  depth = 0 \/ isGameOver g = true ->
  Engine.minimax (S fuel) depth alpha beta mx g = Engine.evaluateBoard g
  /\ EngineFixed.minimax (S fuel) depth alpha beta mx g =
     EngineFixed.evaluateBoard g
  /\ (grid8x8 (board g) ->
      (all_listed EngineFixed.PIECE_VALUES (board g) = true ->
       EngineFixed.minimax (S fuel) depth alpha beta mx g =
       Ret (Num (material EngineFixed.PIECE_VALUES (board g))) g) /\
      (all_listed Engine.PIECE_VALUES (board g) = true ->
       Engine.minimax (S fuel) depth alpha beta mx g =
       Ret (Num (material Engine.PIECE_VALUES (board g))) g)).
Proof.
  intros Hbase.
  assert (Hc : (depth =? 0) || isGameOver g = true).
  { destruct Hbase as [-> | ->]; [reflexivity | apply orb_true_r]. }
  assert (H1 : Engine.minimax (S fuel) depth alpha beta mx g =
               Engine.evaluateBoard g).
  { unfold Engine.minimax. cbn [Search.minimax]. unfold bind, gets.
    now rewrite Hc. }
  assert (H2 : EngineFixed.minimax (S fuel) depth alpha beta mx g =
               EngineFixed.evaluateBoard g).
  { unfold EngineFixed.minimax. cbn [Search.minimax]. unfold bind, gets.
    now rewrite Hc. }
  split; [exact H1|]. split; [exact H2|].
  intros H8. rewrite H1, H2. split.
  - intros Hl. apply evaluateBoard_fixed_run.
    now apply evaluateGrid_fixed_material.
  - intros Hl. apply evaluateBoard_run. now apply evaluateGrid_material.
Qed.

(** ** The claims on the sample rules object *)

Lemma toy_shuffle (g : Toy.Game) : Permutation (moves g) (rev (moves g)).
Proof. apply Permutation_rev. Qed.

Lemma alpha_beta_equals_exhaustive_witness :
  (exists v,
     Engine.minimax 3 2 NInf PInf true Toy.start = Ret v Toy.start /\
     Engine.fullMinimax 3 2 true Toy.start = Ret v Toy.start) /\
  (exists v,
     EngineFixed.minimax 3 2 NInf PInf true Toy.start = Ret v Toy.start /\
     EngineFixed.fullMinimax 3 2 true Toy.start = Ret v Toy.start).
Proof.
  destruct (alpha_beta_equals_exhaustive toy_legal toy_undo toy_board8x8
              3 2 Toy.start true) as [H1 H2]; [cbn; lia|].
  split; [exact (H1 toy_board_listed) | exact (H2 toy_board_listed_fixed)].
Defined.

Lemma moves_offered_witness :
  Engine.getBestMove (@rev string) 3 3 Toy.stuck = Ret null Toy.stuck /\
  (exists m, Engine.getRandomMove (2 # 3) Toy.start = Ret (san m) Toy.start /\
             In m (moves Toy.start)) /\
  (exists m, Engine.getBestMove (@rev string) 3 3 Toy.start =
             Ret (san m) Toy.start /\ In m (moves Toy.start)).
Proof.
  destruct (moves_offered toy_legal toy_undo toy_board8x8 (@rev string)
              Toy.stuck (toy_shuffle _)) as [Hnone _].
  destruct (moves_offered toy_legal toy_undo toy_board8x8 (@rev string)
              Toy.start (toy_shuffle _)) as [_ Hsome].
  split; [exact (proj1 (proj2 (Hnone eq_refl (2 # 3) 3%nat 3)))|].
  assert (Hne : moves Toy.start <> []) by discriminate.
  destruct (Hsome Hne) as (Hrand & Hbest & _).
  split.
  - apply Hrand; [discriminate | reflexivity].
  - apply Hbest. cbn; lia.
Defined.

Lemma getBestMove_leaves_position_witness :
  exists r, Engine.getBestMove (@rev string) 3 3 Toy.start = Ret r Toy.start.
Proof.
  destruct (getBestMove_leaves_position toy_legal toy_undo toy_board8x8
              (@rev string) Toy.start) as (_ & _ & _ & _ & Hret).
  destruct (Hret (toy_shuffle _)) as [Hrun _].
  apply Hrun. cbn; lia.
Defined.

Lemma best_move_depth1_maximal_witness :
  exists (m : string) (gm : Toy.Game) (s : Z),
    Engine.getBestMove (@rev string) 1 1 Toy.start = Ret (san m) Toy.start /\
    In m (moves Toy.start) /\
    move Toy.start m = Some gm /\
    Engine.evaluateBoard gm = Ret (Num s) gm /\
    forall m' gm', In m' (moves Toy.start) -> move Toy.start m' = Some gm' ->
      exists s', Engine.evaluateBoard gm' = Ret (Num s') gm' /\ s' <= s.
Proof.
  apply (best_move_depth1_maximal toy_legal toy_undo toy_board8x8).
  - exact toy_board_listed.
  - cbn. intros m [<- | [<- | [<- | []]]]; discriminate.
  - apply toy_shuffle.
  - reflexivity.
  - discriminate.
  - apply Nat.le_refl.
Defined.

Lemma search_and_evaluate_total_witness :
  exists v, Engine.minimax 3 2 (Num 0) (Num 4) false Toy.start = Ret v Toy.start.
Proof.
  destruct (search_and_evaluate_total toy_legal toy_undo toy_board8x8 Toy.start)
    as (_ & _ & Hrun).
  refine (proj1 (Hrun 3%nat 2 (Num 0) (Num 4) false _)). cbn; lia.
Defined.

Lemma minimax_base_case_witness :
  Engine.minimax 1 5 NInf PInf true Toy.stuck = Engine.evaluateBoard Toy.stuck /\
  Engine.minimax 4 0 NInf PInf true Toy.start = Engine.evaluateBoard Toy.start /\
  EngineFixed.minimax 4 0 NInf PInf true Toy.start = Ret (Num 30) Toy.start /\
  Engine.minimax 4 0 NInf PInf true Toy.start = Ret (Num 3) Toy.start.
Proof.
  split.
  - exact (proj1 (minimax_base_case 0 5 NInf PInf true Toy.stuck
                    (or_intror eq_refl))).
  - destruct (minimax_base_case 3 0 NInf PInf true Toy.start
                (or_introl eq_refl)) as (H1 & _ & H3).
    destruct (H3 (toy_board8x8 _)) as [Hf He].
    split; [exact H1|].
    split; [exact (Hf (toy_board_listed_fixed _)) |
            exact (He (toy_board_listed _))].
Defined.

(** ** The engines run on the sample *)

Example sample_search :
  Engine.minimax 3 2 NInf PInf true Toy.start = Ret (Num 4) Toy.start /\
  Engine.fullMinimax 3 2 true Toy.start = Ret (Num 4) Toy.start /\
  EngineFixed.minimax 3 2 NInf PInf true Toy.start = Ret (Num 40) Toy.start.
Proof. repeat split. Qed.

Example sample_best_move :
  Engine.getBestMove (fun l => l) 1 1 Toy.start = Ret (san "Qxa8") Toy.start /\
  Engine.getBestMove (fun l => l) 3 3 Toy.start = Ret (san "Qxh2") Toy.start /\
  EngineFixed.getBestMove (@rev string) 3 Toy.start =
  Ret (san "Qxh2") Toy.start.
Proof. repeat split. Qed.

(** Out of the root window the cutoff may stop the loop early: the value
    returned is a bound, not the exhaustive value. *)
Example sample_narrow_window :
  Engine.minimax 3 2 (Num 10) (Num 5) true Toy.start = Ret (Num (-1)) Toy.start /\
  Engine.fullMinimax 3 2 true Toy.start = Ret (Num 4) Toy.start.
Proof. repeat split. Qed.

(** With too little fuel the model gives no result. *)
Example sample_out_of_fuel :
  Engine.minimax 1 2 NInf PInf true Toy.start = OutOfFuel.
Proof. reflexivity. Qed.

(** * More on the evaluator *)

(** ** Only the eight by eight window is read *)

Lemma nth_error_window_row {A} (r : list A) (col : nat) :
  (col < 8)%nat -> nth_error (firstn 8 r) col = nth_error r col.
Proof.
  intros Hc. rewrite nth_error_firstn.
  apply Nat.ltb_lt in Hc. now rewrite Hc.
Qed.

Lemma fold_left_ext_in {A B} (f h : A -> B -> A) (l : list B) (a : A) :
  (forall x y, In y l -> f x y = h x y) -> fold_left f l a = fold_left h l a.
Proof.
  revert a; induction l as [|y l IH]; intros a Hfh; simpl; [reflexivity|].
  rewrite Hfh by now left. apply IH. intros x z Hz. apply Hfh. now right.
Qed.

Lemma in_seq_0_8 (i : nat) : In i (seq 0 8) -> (i < 8)%nat.
Proof. intros Hi. apply in_seq in Hi. lia. Qed.

Lemma scanRow_window cell (r : list (option Piece)) (total : number) :
  scanRow cell (firstn 8 r) total = scanRow cell r total.
Proof.
  rewrite !scanRow_unfold. apply fold_left_ext_in. intros tot col Hc.
  now rewrite (nth_error_window_row r col (in_seq_0_8 col Hc)).
Qed.

Lemma scanBoard_window cell (grid : Board) :
  scanBoard cell (window8 grid) = scanBoard cell grid.
Proof.
  rewrite !scanBoard_unfold. apply fold_left_ext_in. intros acc row Hr.
  unfold window8. rewrite nth_error_window_row by exact (in_seq_0_8 row Hr).
  rewrite nth_error_map.
  destruct acc as [tot|]; [|reflexivity].
  destruct (nth_error grid row) as [r|]; [|reflexivity].
  cbn [option_map row_step]. now rewrite scanRow_window.
Qed.

Lemma scanBoard_short cell (grid : Board) :
  (List.length grid < 8)%nat -> scanBoard cell grid = None.
Proof.
  intros Hlen. rewrite scanBoard_unfold.
  change (seq 0 8) with (seq 0 7 ++ [7%nat]). rewrite fold_left_app.
  cbn [fold_left].
  assert (E : nth_error grid 7 = None) by (apply nth_error_None; lia).
  rewrite E. now destruct (fold_left _ (seq 0 7) _).
Qed.

(** X1. [evaluateBoard] reads rows 0 to 7 and columns 0 to 7 of the grid and
    nothing else: with fewer than eight rows the read of [board[row][col]]
    throws, and otherwise the result is that of the grid cut to its first
    eight rows and columns. *)
Theorem evaluateBoard_reads_window (grid : Board) :
  ((List.length grid < 8)%nat ->
   Engine.evaluateGrid grid = None /\ EngineFixed.evaluateGrid grid = None)
  /\ Engine.evaluateGrid (window8 grid) = Engine.evaluateGrid grid
  /\ EngineFixed.evaluateGrid (window8 grid) = EngineFixed.evaluateGrid grid.
Proof.
  split; [|split].
  - intros Hlen. split; now apply scanBoard_short.
  - apply scanBoard_window.
  - apply scanBoard_window.
Qed.

Lemma evaluateBoard_reads_window_witness :
  Engine.evaluateGrid (repeat blank_row 7) = None /\
  EngineFixed.evaluateGrid (repeat blank_row 7) = None.
Proof.
  apply (proj1 (evaluateBoard_reads_window (repeat blank_row 7))).
  cbn. lia.
Defined.

(** ** The size of a score *)

Lemma row_sum_bound (f : Piece -> Z) (c : Z) (r : list (option Piece)) :
  (forall p, - c <= f p <= c) -> 0 <= c ->
  - (c * Z.of_nat (List.length r)) <= row_sum f r <= c * Z.of_nat (List.length r).
Proof.
  intros Hf Hc. induction r as [|[p|] r IH]; cbn [row_sum fold_right List.length].
  - lia.
  - pose proof (Hf p). fold (row_sum f r). lia.
  - fold (row_sum f r). lia.
Qed.

Lemma sum_squares_bound (f : Piece -> Z) (c : Z) (grid : Board) :
  (forall p, - c <= f p <= c) -> 0 <= c -> grid8x8 grid ->
  - (64 * c) <= sum_squares f grid <= 64 * c.
Proof.
  intros Hf Hc [Hlen Hrows].
  assert (Hg : - (8 * c * Z.of_nat (List.length grid)) <= sum_squares f grid
               <= 8 * c * Z.of_nat (List.length grid)).
  { clear Hlen. induction Hrows as [|r grid Hr _ IH];
      cbn [sum_squares fold_right List.length]; [lia|].
    fold (sum_squares f grid).
    pose proof (row_sum_bound f c r Hf Hc) as Hb. rewrite Hr in Hb. lia. }
  rewrite Hlen in Hg. lia.
Qed.

Lemma signed_value_bound (p : Piece) :
  - 9 <= signed_value Engine.PIECE_VALUES p <= 9.
Proof.
  destruct p as [ty c]. unfold signed_value, piece_value; cbn [type color].
  by_key ty; [destruct c; cbn; lia ..|]. rewrite Hu1. destruct c; lia.
Qed.

Lemma signed_value_fixed_bound (p : Piece) :
  - 900 <= signed_value EngineFixed.PIECE_VALUES p <= 900.
Proof.
  destruct p as [ty c]. unfold signed_value, piece_value; cbn [type color].
  by_key ty; [destruct c; cbn; lia ..|]. rewrite Hu2. destruct c; lia.
Qed.

(** X2. On an eight by eight board whose pieces are of the listed types the
    score is an integer of magnitude at most 64 times the largest table
    entry: 57600 with the tenfold table, and 576 with the other one.  So such
    a score never equals one of the sentinels [Infinity] and [-Infinity]. *)
Theorem evaluateBoard_bounded (grid : Board) :
  grid8x8 grid ->
  (all_listed EngineFixed.PIECE_VALUES grid = true ->
   exists s, EngineFixed.evaluateGrid grid = Some s /\ within 57600 s)
  /\ (all_listed Engine.PIECE_VALUES grid = true ->
      exists s, Engine.evaluateGrid grid = Some s /\ within 576 s).
Proof.
  intros H8. split.
  - intros Hl. exists (Num (material EngineFixed.PIECE_VALUES grid)).
    split; [now apply evaluateGrid_fixed_material|].
    eexists; split; [reflexivity|].
    exact (sum_squares_bound _ 900 grid signed_value_fixed_bound
             ltac:(lia) H8).
  - intros Hl. exists (Num (material Engine.PIECE_VALUES grid)).
    split; [now apply evaluateGrid_material|].
    eexists; split; [reflexivity|].
    exact (sum_squares_bound _ 9 grid signed_value_bound ltac:(lia) H8).
Qed.

Lemma evaluateBoard_bounded_witness :
  (exists s, EngineFixed.evaluateGrid lone_king = Some s /\ within 57600 s) /\
  (exists s, Engine.evaluateGrid lone_king = Some s /\ within 576 s).
Proof.
  destruct (evaluateBoard_bounded lone_king lone_king_grid8x8) as [H1 H2].
  split; [exact (H1 eq_refl) | exact (H2 eq_refl)].
Defined.

(** * More on the search *)

(** ** What a value computed in a window says *)

Lemma clamp_inside (alpha beta v t : number) :
  real v -> real t -> clamp alpha beta v = clamp alpha beta t ->
  lt alpha v = true -> lt v beta = true -> v = t.
Proof. intros; order_crush. Qed.

Lemma clamp_low (alpha beta v t : number) :
  real v -> real t -> lt alpha beta = true ->
  clamp alpha beta v = clamp alpha beta t ->
  le v alpha = true -> le t alpha = true.
Proof. intros; order_crush. Qed.

Lemma clamp_high (alpha beta v t : number) :
  real v -> real t -> lt alpha beta = true ->
  clamp alpha beta v = clamp alpha beta t ->
  le beta v = true -> le beta t = true.
Proof. intros; order_crush. Qed.

Section Window.
Context {Game : Type} `{Chess Game}.
Hypothesis legal_move : forall g m, In m (moves g) -> move g m <> None.
Hypothesis undo_move : forall g m g', move g m = Some g' -> undo g' = g.
Hypothesis board_grid : forall g : Game, grid8x8 (board g).

Lemma score_fixed_real :
  (forall g : Game, all_listed EngineFixed.PIECE_VALUES (board g) = true) ->
  forall g : Game, real (score_with EngineFixed.evaluateGrid g).
Proof.
  intros Hl g. rewrite (score_fixed_material board_grid g (Hl g)). discriminate.
Qed.

Lemma score_real_listed :
  (forall g : Game, all_listed Engine.PIECE_VALUES (board g) = true) ->
  forall g : Game, real (score_with Engine.evaluateGrid g).
Proof. intros Hl g. rewrite (score_material board_grid g (Hl g)). discriminate. Qed.

(** X4. When the pieces of every position are of the listed types, in any
    window with [alpha < beta], what [minimax] returns bounds the
    exhaustive value the way the window says: a result strictly inside the
    window is the exhaustive value; a result at or below [alpha] means the
    exhaustive value is at or below [alpha]; a result at or above [beta]
    means it is at or above [beta]. *)
Theorem minimax_window_bound (fuel : nat) (depth : Z) (g : Game)
    (alpha beta : number) (mx : bool) :
  0 <= depth < Z.of_nat fuel -> lt alpha beta = true ->
  ((forall g' : Game, all_listed EngineFixed.PIECE_VALUES (board g') = true) ->
   exists v t,
     EngineFixed.minimax fuel depth alpha beta mx g = Ret v g /\
     EngineFixed.fullMinimax fuel depth mx g = Ret t g /\
     (lt alpha v = true -> lt v beta = true -> v = t) /\
     (le v alpha = true -> le t alpha = true) /\
     (le beta v = true -> le beta t = true))
  /\ ((forall g' : Game, all_listed Engine.PIECE_VALUES (board g') = true) ->
      exists v t,
        Engine.minimax fuel depth alpha beta mx g = Ret v g /\
        Engine.fullMinimax fuel depth mx g = Ret t g /\
        (lt alpha v = true -> lt v beta = true -> v = t) /\
        (le v alpha = true -> le t alpha = true) /\
        (le beta v = true -> le beta t = true)).
Proof.
  intros Hd Hw. split.
  - intros Hl.
    destruct (alphabeta_clamp _ (score_fixed_real Hl) (Z.to_nat depth) g
                alpha beta mx Hw) as [Hr Hc].
    pose proof (exhaustive_real _ (score_fixed_real Hl) (Z.to_nat depth) g mx)
      as Ht.
    eexists; eexists. unfold EngineFixed.minimax, EngineFixed.fullMinimax.
    rewrite (minimax_run _ _ legal_move undo_move
               (evaluateBoard_fixed_score board_grid)) by exact Hd.
    rewrite (fullMinimax_run _ _ legal_move undo_move
               (evaluateBoard_fixed_score board_grid)) by exact Hd.
    split; [reflexivity|]. split; [reflexivity|].
    split; [now apply clamp_inside|].
    split; [now apply (clamp_low alpha beta) | now apply (clamp_high alpha beta)].
  - intros Hl.
    destruct (alphabeta_clamp _ (score_real_listed Hl) (Z.to_nat depth) g
                alpha beta mx Hw) as [Hr Hc].
    pose proof (exhaustive_real _ (score_real_listed Hl) (Z.to_nat depth) g mx)
      as Ht.
    eexists; eexists. unfold Engine.minimax, Engine.fullMinimax.
    rewrite (minimax_run _ _ legal_move undo_move
               (evaluateBoard_score board_grid)) by exact Hd.
    rewrite (fullMinimax_run _ _ legal_move undo_move
               (evaluateBoard_score board_grid)) by exact Hd.
    split; [reflexivity|]. split; [reflexivity|].
    split; [now apply clamp_inside|].
    split; [now apply (clamp_low alpha beta) | now apply (clamp_high alpha beta)].
Qed.

End Window.

Lemma minimax_window_bound_witness :
  (exists v t,
     EngineFixed.minimax 3 2 (Num 0) (Num 20) true Toy.start = Ret v Toy.start /\
     EngineFixed.fullMinimax 3 2 true Toy.start = Ret t Toy.start /\
     (lt (Num 0) v = true -> lt v (Num 20) = true -> v = t) /\
     (le v (Num 0) = true -> le t (Num 0) = true) /\
     (le (Num 20) v = true -> le (Num 20) t = true)) /\
  (exists v t,
     Engine.minimax 3 2 (Num 0) (Num 2) true Toy.start = Ret v Toy.start /\
     Engine.fullMinimax 3 2 true Toy.start = Ret t Toy.start /\
     (lt (Num 0) v = true -> lt v (Num 2) = true -> v = t) /\
     (le v (Num 0) = true -> le t (Num 0) = true) /\
     (le (Num 2) v = true -> le (Num 2) t = true)).
Proof.
  assert (Hd : 0 <= 2 < Z.of_nat 3) by (cbn; lia).
  split.
  - exact (proj1 (minimax_window_bound toy_legal toy_undo toy_board8x8
                    3 2 Toy.start (Num 0) (Num 20) true Hd eq_refl)
             toy_board_listed_fixed).
  - exact (proj2 (minimax_window_bound toy_legal toy_undo toy_board8x8
                    3 2 Toy.start (Num 0) (Num 2) true Hd eq_refl)
             toy_board_listed).
Defined.

(** ** Which move the loop of [getBestMove] keeps *)

Lemma better_trans (mx : bool) (a c d : number) :
  better mx a c = true -> better mx c d = true -> better mx a d = true.
Proof. destruct mx; unfold better; intros; order_crush. Qed.

Lemma better_no_worse_trans (mx : bool) (a c d : number) :
  better mx a c = true -> no_worse mx c d = true -> better mx a d = true.
Proof. destruct mx; unfold better, no_worse; intros; order_crush. Qed.

Lemma not_better_no_worse (mx : bool) (a c : number) :
  real a -> real c -> better mx a c = false -> no_worse mx c a = true.
Proof. destruct mx; unfold better, no_worse; intros; order_crush. Qed.

Lemma better_no_worse (mx : bool) (a c : number) :
  better mx a c = true -> no_worse mx a c = true.
Proof. destruct mx; unfold better, no_worse; intros; order_crush. Qed.

Lemma no_worse_refl (mx : bool) (a : number) : real a -> no_worse mx a a = true.
Proof. destruct mx; unfold no_worse; intros; order_crush. Qed.

Lemma no_worse_sentinel (mx : bool) (a c : number) :
  real a -> real c ->
  no_worse mx (if mx then NInf else PInf) a = true ->
  no_worse mx (if mx then NInf else PInf) c = true ->
  no_worse mx a c = true.
Proof. destruct mx; unfold no_worse; intros; order_crush. Qed.

Section FirstBest.
Context {Game : Type} `{Chess Game}.
Variable value : Game -> number.
Hypothesis value_is_real : forall g, real (value g).

(** The loop keeps the first of the moves that beat everything before them
    and are not beaten by anything after them. *)
Lemma bestOf_first_best (mx : bool) (g : Game) (ms : list string) :
  forall bm bv, real bv ->
    (fst (bestOf value mx g ms bm bv) = bm /\
     forall m', In m' ms -> no_worse mx bv (value (after g m')) = true)
    \/
    (exists pre m post,
       ms = pre ++ m :: post /\
       fst (bestOf value mx g ms bm bv) = Some m /\
       better mx (value (after g m)) bv = true /\
       (forall m', In m' pre ->
          better mx (value (after g m)) (value (after g m')) = true) /\
       (forall m', In m' post ->
          no_worse mx (value (after g m)) (value (after g m')) = true)).
Proof.
  induction ms as [|m0 ms IH]; intros bm bv Hbv.
  - left. split; [reflexivity | intros m' []].
  - pose proof (value_is_real (after g m0)) as Hv0.
    assert (Hstep :
      bestOf value mx g (m0 :: ms) bm bv =
      if better mx (value (after g m0)) bv
      then bestOf value mx g ms (Some m0) (value (after g m0))
      else bestOf value mx g ms bm bv).
    { cbn [bestOf]. unfold better, gt. now destruct mx. }
    rewrite Hstep. destruct (better mx (value (after g m0)) bv) eqn:Hb.
    + right. destruct (IH (Some m0) (value (after g m0)) Hv0)
        as [[E Hall] | (pre & m & post & Ems & E & Hbm & Hpre & Hpost)].
      * exists [], m0, ms. split; [reflexivity|]. split; [exact E|].
        split; [exact Hb|]. split; [intros m' []|exact Hall].
      * exists (m0 :: pre), m, post. split; [now rewrite Ems|].
        split; [exact E|]. split; [exact (better_trans _ _ _ _ Hbm Hb)|].
        split; [|exact Hpost].
        intros m' [<- | Hin]; [exact Hbm | now apply Hpre].
    + apply (not_better_no_worse mx _ _ Hv0 Hbv) in Hb.
      destruct (IH bm bv Hbv)
        as [[E Hall] | (pre & m & post & Ems & E & Hbm & Hpre & Hpost)].
      * left. split; [exact E|].
        intros m' [<- | Hin]; [exact Hb | now apply Hall].
      * right. exists (m0 :: pre), m, post. split; [now rewrite Ems|].
        split; [exact E|]. split; [exact Hbm|]. split; [|exact Hpost].
        intros m' [<- | Hin]; [|now apply Hpre].
        exact (better_no_worse_trans _ _ _ _ Hbm Hb).
Qed.

(** What [bestMove || moves[0]] is after the loop, started from [null] and
    the sentinel. *)
Lemma chosen_first_best (mx : bool) (g : Game) (ms : list string) :
  ms <> [] -> (forall m, In m ms -> m <> "") ->
  exists pre m post,
    ms = pre ++ m :: post /\
    or_else (fst (bestOf value mx g ms None (if mx then NInf else PInf)))
            (at_index ms 0) = san m /\
    (forall m', In m' ms ->
       no_worse mx (value (after g m)) (value (after g m')) = true) /\
    (forall m', In m' pre ->
       better mx (value (after g m)) (value (after g m')) = true).
Proof.
  intros Hne Hsan.
  assert (Hs : real (if mx then NInf else PInf)) by (destruct mx; discriminate).
  destruct (bestOf_first_best mx g ms None _ Hs)
    as [[E Hall] | (pre & m & post & Ems & E & Hbm & Hpre & Hpost)].
  - destruct ms as [|m1 rest]; [congruence|].
    exists [], m1, rest. split; [reflexivity|]. rewrite E.
    split; [reflexivity|]. split; [|intros m' []].
    intros m' Hm'. apply no_worse_sentinel; try apply value_is_real.
    + apply Hall. now left.
    + now apply Hall.
  - exists pre, m, post. split; [exact Ems|]. rewrite E.
    assert (Hm : In m ms) by (rewrite Ems; apply in_elt).
    split.
    { unfold or_else, truthy. destruct (String.eqb_spec m "");
        [now apply Hsan in Hm | reflexivity]. }
    split; [|exact Hpre].
    intros m' Hm'. rewrite Ems in Hm'. apply in_app_or in Hm'.
    destruct Hm' as [Hin | [<- | Hin]].
    + apply better_no_worse. now apply Hpre.
    + apply no_worse_refl, value_is_real.
    + now apply Hpost.
Qed.

End FirstBest.

(** ** The never-ending rules object keeps the laws *)

Lemma loop_legal grid_for (g : Loop.Game) (m : string) :
  In m (moves (Chess := Loop.rules grid_for) g) ->
  move (Chess := Loop.rules grid_for) g m <> None.
Proof.
  cbn. unfold Loop.play. intros [<- | [<- | []]]; discriminate.
Qed.

Lemma loop_undo grid_for (g : Loop.Game) (m : string) (g' : Loop.Game) :
  move (Chess := Loop.rules grid_for) g m = Some g' ->
  undo (Chess := Loop.rules grid_for) g' = g.
Proof.
  cbn. unfold Loop.play. destruct (existsb _ _); [|discriminate].
  intros E; injection E as <-. now destruct g.
Qed.

Lemma loop_odd_grid (g : Loop.Game) : grid8x8 (board (Chess := Loop.odd) g).
Proof. split; [reflexivity | repeat constructor]. Qed.

Lemma loop_cycle_cases (P : Board -> Prop) :
  Forall P Loop.boards -> forall g : Loop.Game, P (board (Chess := Loop.cycle) g).
Proof.
  intros HP g.
  change (P (nth (List.length (Loop.played g) mod 3)%nat Loop.boards
                 (Toy.grid_of Toy.kings))).
  rewrite Forall_forall in HP.
  destruct (nth_in_or_default (List.length (Loop.played g) mod 3)%nat
              Loop.boards (Toy.grid_of Toy.kings)) as [Hin | ->].
  - now apply HP.
  - apply HP. now left.
Qed.

Lemma loop_cycle_grid (g : Loop.Game) : grid8x8 (board (Chess := Loop.cycle) g).
Proof. apply loop_cycle_cases. repeat constructor; apply toy_grid8x8. Qed.

Lemma loop_cycle_listed (g : Loop.Game) :
  all_listed Engine.PIECE_VALUES (board (Chess := Loop.cycle) g) = true.
Proof.
  apply (loop_cycle_cases
           (fun grid => all_listed Engine.PIECE_VALUES grid = true)).
  repeat constructor.
Qed.

Lemma loop_names_nonempty (m : string) : In m Loop.names -> m <> "".
Proof. intros [<- | [<- | []]]; discriminate. Qed.

(** ** The move that [getBestMove] returns *)

Section Best.
Context {Game : Type} `{Chess Game}.
Hypothesis legal_move : forall g m, In m (moves g) -> move g m <> None.
Hypothesis undo_move : forall g m g', move g m = Some g' -> undo g' = g.
Hypothesis board_grid : forall g : Game, grid8x8 (board g).

Lemma incl_shuffle shuffle (g : Game) :
  Permutation (moves g) (shuffle (moves g)) ->
  incl (shuffle (moves g)) (moves g).
Proof.
  intros Hperm x Hx. apply Permutation_sym in Hperm.
  exact (Permutation_in x Hperm Hx).
Qed.

Lemma shuffle_nonempty shuffle (g : Game) :
  Permutation (moves g) (shuffle (moves g)) -> moves g <> [] ->
  shuffle (moves g) <> [].
Proof.
  intros Hperm Hne E. rewrite E in Hperm.
  apply Permutation_sym, Permutation_nil in Hperm. congruence.
Qed.

Lemma leads_to_value (fuel : nat) (depth : Z) (g : Game) (m : string)
    (v : number) :
  1 <= depth <= Z.of_nat fuel -> In m (moves g) ->
  (leads_to fuel depth g m v <->
   v = exhaustive (score_with Engine.evaluateGrid) (Z.to_nat (depth - 1))
         (after g m) (is_w (turn (after g m)))).
Proof.
  intros Hd Hin. unfold leads_to, Engine.fullMinimax.
  rewrite (move_after legal_move g m Hin). split.
  - intros (gm & E & Hrun). injection E as <-.
    rewrite (fullMinimax_run _ _ legal_move undo_move
               (evaluateBoard_score board_grid)) in Hrun by lia.
    now injection Hrun as <-.
  - intros ->. exists (after g m). split; [reflexivity|].
    apply (fullMinimax_run _ _ legal_move undo_move
             (evaluateBoard_score board_grid)). lia.
Qed.

Lemma leads_to_fixed_value (fuel : nat) (g : Game) (m : string) (v : number) :
  (3 <= fuel)%nat -> In m (moves g) ->
  (leads_to_fixed fuel g m v <->
   v = exhaustive (score_with EngineFixed.evaluateGrid) 2 (after g m)
         (negb (is_w (turn g)))).
Proof.
  intros Hd Hin. unfold leads_to_fixed, EngineFixed.fullMinimax,
    EngineFixed.DEPTH.
  rewrite (move_after legal_move g m Hin). split.
  - intros (gm & E & Hrun). injection E as <-.
    rewrite (fullMinimax_run _ _ legal_move undo_move
               (evaluateBoard_fixed_score board_grid)) in Hrun by lia.
    now injection Hrun as <-.
  - intros ->. exists (after g m). split; [reflexivity|].
    apply (fullMinimax_run _ _ legal_move undo_move
             (evaluateBoard_fixed_score board_grid)). lia.
Qed.

(** The move returned, in the order the shuffle left, with what is known of
    the moves before it and of all the moves. *)
Lemma getBestMove_choice (shuffle : list string -> list string) (g : Game)
    (fuel : nat) (depth : Z) :
  (forall g' : Game, all_listed Engine.PIECE_VALUES (board g') = true) ->
  (forall m, In m (moves g) -> m <> "") ->
  Permutation (moves g) (shuffle (moves g)) ->
  moves g <> [] -> 1 <= depth <= Z.of_nat fuel ->
  exists pre m post v,
    shuffle (moves g) = pre ++ m :: post /\
    Engine.getBestMove shuffle fuel depth g = Ret (san m) g /\
    In m (moves g) /\
    leads_to fuel depth g m v /\
    (forall m' v', In m' (moves g) -> leads_to fuel depth g m' v' ->
       no_worse (is_w (turn g)) v v' = true) /\
    (forall m' v', In m' pre -> leads_to fuel depth g m' v' ->
       better (is_w (turn g)) v v' = true).
Proof.
  intros Hl Hsan Hperm Hne Hd.
  pose proof (incl_shuffle shuffle g Hperm) as Hin.
  pose proof (shuffle_nonempty shuffle g Hperm Hne) as Hne'.
  assert (Hval : forall g' : Game,
             value_at depth g' =
             exhaustive (score_with Engine.evaluateGrid)
               (Z.to_nat (depth - 1)) g' (is_w (turn g'))).
  { intros g'. unfold value_at.
    apply alphabeta_exhaustive, (score_real_listed board_grid Hl). }
  assert (Hreal : forall g' : Game, real (value_at depth g')).
  { intros g'. rewrite Hval.
    apply exhaustive_real, (score_real_listed board_grid Hl). }
  destruct (chosen_first_best (value_at depth) Hreal (is_w (turn g)) g
              (shuffle (moves g)) Hne')
    as (pre & m & post & Ems & E & Hall & Hpre).
  { intros m Hm. apply Hsan, Hin, Hm. }
  assert (Hm : In m (moves g)) by (apply Hin; rewrite Ems; apply in_elt).
  exists pre, m, post, (value_at depth (after g m)).
  split; [exact Ems|].
  split.
  { rewrite (getBestMove_run legal_move undo_move board_grid
               shuffle fuel depth g Hne Hin Hd).
    now rewrite E. }
  split; [exact Hm|].
  split; [apply (leads_to_value fuel depth g m _ Hd Hm), Hval|].
  split.
  - intros m' v' Hm' Hv'.
    apply (leads_to_value fuel depth g m' _ Hd Hm') in Hv'. subst v'.
    rewrite <- Hval. apply Hall. exact (Permutation_in m' Hperm Hm').
  - intros m' v' Hm' Hv'.
    assert (Hm'g : In m' (moves g)).
    { apply Hin. rewrite Ems. apply in_or_app. now left. }
    apply (leads_to_value fuel depth g m' _ Hd Hm'g) in Hv'. subst v'.
    rewrite <- Hval. now apply Hpre.
Qed.

(** X6. At every depth from 1 on and for either side, the move that
    [getBestMove] returns leads to a position whose exhaustive search value
    is the greatest, for White, or the least, for Black, among the positions
    the legal moves lead to. *)
Theorem getBestMove_optimal (shuffle : list string -> list string) (g : Game)
    (fuel : nat) (depth : Z) :
  (forall g' : Game, all_listed Engine.PIECE_VALUES (board g') = true) ->
  (forall m, In m (moves g) -> m <> "") ->
  Permutation (moves g) (shuffle (moves g)) ->
  moves g <> [] -> 1 <= depth <= Z.of_nat fuel ->
  exists m v,
    Engine.getBestMove shuffle fuel depth g = Ret (san m) g /\
    In m (moves g) /\
    leads_to fuel depth g m v /\
    forall m' v', In m' (moves g) -> leads_to fuel depth g m' v' ->
      no_worse (is_w (turn g)) v v' = true.
Proof.
  intros Hl Hsan Hperm Hne Hd.
  destruct (getBestMove_choice shuffle g fuel depth Hl Hsan Hperm Hne Hd)
    as (pre & m & post & v & _ & Hrun & Hm & Hv & Hall & _).
  exists m, v. auto.
Qed.

(** X7. Among moves of equal value the first in the shuffled order wins:
    every move that the shuffle put before the returned one leads to a
    strictly worse value for the side to move. *)
Theorem getBestMove_first_of_best (shuffle : list string -> list string)
    (g : Game) (fuel : nat) (depth : Z) :
  (forall g' : Game, all_listed Engine.PIECE_VALUES (board g') = true) ->
  (forall m, In m (moves g) -> m <> "") ->
  Permutation (moves g) (shuffle (moves g)) ->
  moves g <> [] -> 1 <= depth <= Z.of_nat fuel ->
  exists pre m post v,
    shuffle (moves g) = pre ++ m :: post /\
    Engine.getBestMove shuffle fuel depth g = Ret (san m) g /\
    leads_to fuel depth g m v /\
    forall m' v', In m' pre -> leads_to fuel depth g m' v' ->
      better (is_w (turn g)) v v' = true.
Proof.
  intros Hl Hsan Hperm Hne Hd.
  destruct (getBestMove_choice shuffle g fuel depth Hl Hsan Hperm Hne Hd)
    as (pre & m & post & v & Ems & Hrun & _ & Hv & _ & Hpre).
  exists pre, m, post, v. auto.
Qed.

(** X8. The fixed-depth engine, when the pieces of every position are of the
    listed types: the move returned leads to a position whose exhaustive
    value two plies deep is the greatest, for White, or the least, for Black,
    among the legal moves; and the moves shuffled before it are strictly
    worse. *)
Theorem getBestMove_fixed_optimal (shuffle : list string -> list string)
    (g : Game) (fuel : nat) :
  (forall g' : Game, all_listed EngineFixed.PIECE_VALUES (board g') = true) ->
  (forall m, In m (moves g) -> m <> "") ->
  Permutation (moves g) (shuffle (moves g)) ->
  moves g <> [] -> (3 <= fuel)%nat ->
  exists pre m post v,
    shuffle (moves g) = pre ++ m :: post /\
    EngineFixed.getBestMove shuffle fuel g = Ret (san m) g /\
    In m (moves g) /\
    leads_to_fixed fuel g m v /\
    (forall m' v', In m' (moves g) -> leads_to_fixed fuel g m' v' ->
       no_worse (is_w (turn g)) v v' = true) /\
    (forall m' v', In m' pre -> leads_to_fixed fuel g m' v' ->
       better (is_w (turn g)) v v' = true).
Proof.
  intros Hl Hsan Hperm Hne Hd.
  pose proof (incl_shuffle shuffle g Hperm) as Hin.
  pose proof (shuffle_nonempty shuffle g Hperm Hne) as Hne'.
  set (mx := is_w (turn g)).
  assert (Hval : forall g' : Game,
             value_fixed mx g' =
             exhaustive (score_with EngineFixed.evaluateGrid) 2 g' (negb mx)).
  { intros g'. unfold value_fixed.
    apply alphabeta_exhaustive, (score_fixed_real board_grid Hl). }
  assert (Hreal : forall g' : Game, real (value_fixed mx g')).
  { intros g'. rewrite Hval.
    apply exhaustive_real, (score_fixed_real board_grid Hl). }
  destruct (chosen_first_best (value_fixed mx) Hreal mx g
              (shuffle (moves g)) Hne')
    as (pre & m & post & Ems & E & Hall & Hpre).
  { intros m Hm. apply Hsan, Hin, Hm. }
  assert (Hm : In m (moves g)) by (apply Hin; rewrite Ems; apply in_elt).
  exists pre, m, post, (value_fixed mx (after g m)).
  split; [exact Ems|].
  split.
  { rewrite (getBestMove_fixed_run legal_move undo_move board_grid
               shuffle fuel g Hne Hin Hd).
    fold mx. now rewrite E. }
  split; [exact Hm|].
  split; [apply (leads_to_fixed_value fuel g m _ Hd Hm), Hval|].
  split.
  - intros m' v' Hm' Hv'.
    apply (leads_to_fixed_value fuel g m' _ Hd Hm') in Hv'. subst v'.
    rewrite <- Hval. apply Hall. exact (Permutation_in m' Hperm Hm').
  - intros m' v' Hm' Hv'.
    assert (Hm'g : In m' (moves g)).
    { apply Hin. rewrite Ems. apply in_or_app. now left. }
    apply (leads_to_fixed_value fuel g m' _ Hd Hm'g) in Hv'. subst v'.
    rewrite <- Hval. now apply Hpre.
Qed.

(** X9. With exactly one legal move, [getBestMove] returns that move, whatever
    the board and the value found for it. *)
Theorem getBestMove_only_move (shuffle : list string -> list string)
    (g : Game) (m : string) (fuel : nat) :
  moves g = [m] -> Permutation (moves g) (shuffle (moves g)) ->
  (forall depth, 1 <= depth <= Z.of_nat fuel ->
     Engine.getBestMove shuffle fuel depth g = Ret (san m) g)
  /\ ((3 <= fuel)%nat -> EngineFixed.getBestMove shuffle fuel g = Ret (san m) g).
Proof.
  intros Em Hperm.
  pose proof (incl_shuffle shuffle g Hperm) as Hin.
  assert (Hne : moves g <> []) by (rewrite Em; discriminate).
  assert (Es : shuffle (moves g) = [m]).
  { rewrite Em in Hperm |- *. now apply Permutation_length_1_inv. }
  assert (Hor : forall bm : option string,
             bm = None \/ (exists m0, In m0 [m] /\ bm = Some m0) ->
             or_else bm (at_index [m] 0) = san m).
  { intros bm [-> | (m0 & [<- | []] & ->)]; [reflexivity|].
    unfold or_else. now destruct (truthy m). }
  split.
  - intros depth Hd.
    rewrite (getBestMove_run legal_move undo_move board_grid
               shuffle fuel depth g Hne Hin Hd).
    rewrite Es. f_equal. apply Hor. apply bestOf_from.
  - intros Hd.
    rewrite (getBestMove_fixed_run legal_move undo_move board_grid
               shuffle fuel g Hne Hin Hd).
    rewrite Es. f_equal. apply Hor. apply bestOf_from.
Qed.

Lemma bestOf_all_NaN (value : Game -> number) (mx : bool) (g : Game)
    (ms : list string) :
  (forall m, In m ms -> value (after g m) = NaN) ->
  forall bm bv, bestOf value mx g ms bm bv = (bm, bv).
Proof.
  induction ms as [|m ms IH]; intros Hnan bm bv; cbn [bestOf]; [reflexivity|].
  rewrite (Hnan m (or_introl eq_refl)).
  assert (E1 : gt NaN bv = false) by now destruct bv.
  assert (E2 : lt NaN bv = false) by reflexivity.
  rewrite E1, E2.
  destruct mx; apply IH; intros m' Hm'; apply Hnan; now right.
Qed.

(** X10. When the search gives [NaN] for every legal move, no comparison in the
    loop succeeds, [bestMove] stays [null], and [getBestMove] falls back on
    the first move of the shuffled list. *)
Theorem getBestMove_NaN_fallback (shuffle : list string -> list string)
    (g : Game) (fuel : nat) (depth : Z) :
  Permutation (moves g) (shuffle (moves g)) ->
  moves g <> [] -> 1 <= depth <= Z.of_nat fuel ->
  (forall m gm, In m (moves g) -> move g m = Some gm ->
     Engine.minimax fuel (depth - 1) NInf PInf (is_w (turn gm)) gm = Ret NaN gm) ->
  exists m rest,
    shuffle (moves g) = m :: rest /\
    Engine.getBestMove shuffle fuel depth g = Ret (san m) g.
Proof.
  intros Hperm Hne Hd Hnan.
  pose proof (incl_shuffle shuffle g Hperm) as Hin.
  pose proof (shuffle_nonempty shuffle g Hperm Hne) as Hne'.
  rewrite (getBestMove_run legal_move undo_move board_grid
             shuffle fuel depth g Hne Hin Hd).
  rewrite bestOf_all_NaN.
  - destruct (shuffle (moves g)) as [|m rest]; [congruence|].
    exists m, rest. split; reflexivity.
  - intros m Hm. apply Hin in Hm.
    specialize (Hnan m (after g m) Hm (move_after legal_move g m Hm)).
    unfold Engine.minimax in Hnan.
    rewrite (minimax_run _ _ legal_move undo_move
               (evaluateBoard_score board_grid)) in Hnan by lia.
    unfold value_at. now injection Hnan.
Qed.

End Best.

(** ** The size of a search value *)

Lemma max_within (limit : Z) (M e : number) :
  M = NInf \/ within limit M -> within limit e -> within limit (Math_max M e).
Proof.
  intros [-> | (x & -> & Hx)] (y & -> & Hy).
  - exists y. now split.
  - unfold Math_max; cbn. destruct (x <=? y); [exists y | exists x]; now split.
Qed.

Lemma min_within (limit : Z) (M e : number) :
  M = PInf \/ within limit M -> within limit e -> within limit (Math_min M e).
Proof.
  intros [-> | (x & -> & Hx)] (y & -> & Hy).
  - exists y. now split.
  - unfold Math_min; cbn. destruct (x <=? y); [exists x | exists y]; now split.
Qed.

Section Finite.
Context {Game : Type} `{Chess Game}.
Variable score : Game -> number.
Variable limit : Z.
Hypothesis score_within : forall g, within limit (score g).

(** While the game is not over there is a move. *)
Hypothesis no_dead_end : forall g, isGameOver g = false -> moves g <> [].

Lemma abMax_within cab (g : Game) (ms : list string) :
  (forall g' a c, within limit (cab g' a c)) ->
  forall M a beta,
    M = NInf \/ within limit M -> ms <> [] \/ within limit M ->
    within limit (abMax cab g ms M a beta).
Proof.
  intros Hc. induction ms as [|m ms IH]; intros M a beta HM Hne.
  - destruct Hne as [Hne | Hw]; [congruence | exact Hw].
  - cbn [abMax].
    pose proof (max_within limit M _ HM (Hc (after g m) a beta)) as Hw.
    destruct (le beta _); [exact Hw | apply IH; now right].
Qed.

Lemma abMin_within cab (g : Game) (ms : list string) :
  (forall g' a c, within limit (cab g' a c)) ->
  forall M a beta,
    M = PInf \/ within limit M -> ms <> [] \/ within limit M ->
    within limit (abMin cab g ms M a beta).
Proof.
  intros Hc. induction ms as [|m ms IH]; intros M a beta HM Hne.
  - destruct Hne as [Hne | Hw]; [congruence | exact Hw].
  - cbn [abMin].
    pose proof (min_within limit M _ HM (Hc (after g m) a beta)) as Hw.
    destruct (le _ a); [exact Hw | apply IH; now right].
Qed.

Lemma alphabeta_within (d : nat) :
  forall g alpha beta mx, within limit (alphabeta score d g alpha beta mx).
Proof.
  induction d as [|d IH]; intros g alpha beta mx; cbn [alphabeta];
    [apply score_within|].
  destruct (isGameOver g) eqn:Eo; [apply score_within|].
  pose proof (no_dead_end g Eo) as Hne.
  destruct mx.
  - apply abMax_within; [intros; apply IH | now left | now left].
  - apply abMin_within; [intros; apply IH | now left | now left].
Qed.

End Finite.

Section FiniteSearch.
Context {Game : Type} `{Chess Game}.
Hypothesis legal_move : forall g m, In m (moves g) -> move g m <> None.
Hypothesis undo_move : forall g m g', move g m = Some g' -> undo g' = g.
Hypothesis board_grid : forall g : Game, grid8x8 (board g).
Hypothesis no_dead_end : forall g : Game, isGameOver g = false -> moves g <> [].

(** X5. When every position that is not over has a move and the pieces of
    every position are of the listed types, the sentinels never come out of
    the search: at every natural depth and from any window, [minimax]
    returns an integer score within the bounds of the evaluator. *)
Theorem minimax_finite (fuel : nat) (depth : Z) (g : Game)
    (alpha beta : number) (mx : bool) :
  0 <= depth < Z.of_nat fuel ->
  ((forall g' : Game, all_listed EngineFixed.PIECE_VALUES (board g') = true) ->
   exists v, EngineFixed.minimax fuel depth alpha beta mx g = Ret v g /\
             within 57600 v)
  /\ ((forall g' : Game, all_listed Engine.PIECE_VALUES (board g') = true) ->
      exists v, Engine.minimax fuel depth alpha beta mx g = Ret v g /\
                within 576 v).
Proof.
  intros Hd. split.
  - intros Hl. eexists. unfold EngineFixed.minimax.
    rewrite (minimax_run _ _ legal_move undo_move
               (evaluateBoard_fixed_score board_grid)) by exact Hd.
    split; [reflexivity|]. apply alphabeta_within; [|exact no_dead_end].
    intros g'. rewrite (score_fixed_material board_grid g' (Hl g')).
    eexists; split; [reflexivity|].
    exact (sum_squares_bound _ 900 _ signed_value_fixed_bound ltac:(lia)
             (board_grid g')).
  - intros Hl. eexists. unfold Engine.minimax.
    rewrite (minimax_run _ _ legal_move undo_move
               (evaluateBoard_score board_grid)) by exact Hd.
    split; [reflexivity|]. apply alphabeta_within; [|exact no_dead_end].
    intros g'. rewrite (score_material board_grid g' (Hl g')).
    eexists; split; [reflexivity|].
    exact (sum_squares_bound _ 9 _ signed_value_bound ltac:(lia)
             (board_grid g')).
Qed.

End FiniteSearch.

(** ** Every legal move can be drawn *)

(** For [i < n] there is a fraction [j / 2^k] in [0, 1) whose product with
    [n] has integer part [i]. *)
Lemma dyadic_index (i n : Z) :
  0 <= i < n ->
  exists j k : Z,
    0 <= k /\ 0 <= j < 2 ^ k /\ 2 ^ k < 2 * n /\ (j * n) / 2 ^ k = i.
Proof.
  intros Hi.
  set (k := Z.log2_up n). set (P := 2 ^ k).
  assert (Hk : 0 <= k) by apply Z.log2_up_nonneg.
  assert (HP : n <= P /\ P < 2 * n).
  { destruct (Z.eq_dec n 1) as [-> | Hn1]; [cbn; lia|].
    pose proof (Z.log2_up_spec n ltac:(lia)) as [Hlo Hhi]. fold k in Hlo, Hhi.
    split; [exact Hhi|]. unfold P.
    replace k with (Z.succ (Z.pred k)) by lia.
    rewrite Z.pow_succ_r; [lia|].
    assert (0 < k) by (apply Z.log2_up_pos; lia). lia. }
  set (j := (i * P + n - 1) / n).
  assert (Hj : i * P <= j * n < i * P + n).
  { unfold j. pose proof (Z.div_mod (i * P + n - 1) n ltac:(lia)) as Hdm.
    pose proof (Z.mod_pos_bound (i * P + n - 1) n ltac:(lia)) as Hmod. nia. }
  exists j, k. split; [exact Hk|]. fold P.
  split; [split; nia|]. split; [lia|].
  symmetry. apply (Z.div_unique_pos (j * n) P i (j * n - i * P)); nia.
Qed.

(** X12. [getRandomMove] can return every legal move: for each of them there
    is a value of [Math.random()] in [0, 1), a fraction [j / 2^k] with
    [2^k] less than twice the number of moves, that selects it. *)
Theorem getRandomMove_reaches_all {Game} `{Chess Game} (g : Game) (m : string) :
  In m (moves g) ->
  exists (j k : Z) (random : Q),
    0 <= k /\ 0 <= j < 2 ^ k /\
    2 ^ k < 2 * Z.of_nat (List.length (moves g)) /\
    random = (j # Z.to_pos (2 ^ k)) /\
    (0 <= random)%Q /\ (random < 1)%Q /\
    Engine.getRandomMove random g = Ret (san m) g.
Proof.
  intros Hin. destruct (In_nth_error _ _ Hin) as [i Hi].
  assert (Hlt : (i < List.length (moves g))%nat).
  { apply nth_error_Some. rewrite Hi. discriminate. }
  set (n := List.length (moves g)) in *.
  destruct (dyadic_index (Z.of_nat i) (Z.of_nat n) ltac:(lia))
    as (j & k & Hk & Hj & HP & Hdiv).
  assert (Hpos : Z.pos (Z.to_pos (2 ^ k)) = 2 ^ k)
    by (apply Z2Pos.id; lia).
  exists j, k, (j # Z.to_pos (2 ^ k)).
  split; [exact Hk|]. split; [exact Hj|]. split; [exact HP|].
  split; [reflexivity|]. split; [|split].
  - unfold Qle; cbn. lia.
  - unfold Qlt; cbn. rewrite Hpos. lia.
  - unfold Engine.getRandomMove, bind, gets, ret. fold n.
    destruct n as [|n'] eqn:En; [lia|]. cbn [Nat.eqb].
    assert (Ef : Qfloor ((j # Z.to_pos (2 ^ k)) * inject_Z (Z.of_nat (S n')))
                 = Z.of_nat i).
    { unfold Qfloor, Qmult, inject_Z; cbn [Qnum Qden].
      rewrite Pos.mul_1_r, Hpos. exact Hdiv. }
    rewrite Ef. unfold at_index.
    destruct (Z.ltb_spec (Z.of_nat i) 0); [lia|].
    now rewrite Nat2Z.id, Hi.
Qed.

Lemma getRandomMove_reaches_all_witness :
  exists (j k : Z) (random : Q),
    0 <= k /\ 0 <= j < 2 ^ k /\
    2 ^ k < 2 * Z.of_nat (List.length (moves Toy.start)) /\
    random = (j # Z.to_pos (2 ^ k)) /\
    (0 <= random)%Q /\ (random < 1)%Q /\
    Engine.getRandomMove random Toy.start = Ret (san "Kf2") Toy.start.
Proof.
  apply (getRandomMove_reaches_all Toy.start "Kf2").
  cbn. right; right; left; reflexivity.
Defined.

(** ** The callers: the move returned is made on the same object *)

Lemma if_move_san (m : string) : m <> "" -> if_move (san m) = Some m.
Proof.
  intros Hm. unfold if_move, truthy.
  now destruct (String.eqb_spec m "").
Qed.

Section CallerFacts.
Context {Game : Type} `{Chess Game}.
Hypothesis legal_move : forall g m, In m (moves g) -> move g m <> None.
Hypothesis undo_move : forall g m g', move g m = Some g' -> undo g' = g.
Hypothesis board_grid : forall g : Game, grid8x8 (board g).

Lemma getBestMove_member shuffle (fuel : nat) (depth : Z) (g : Game) :
  Permutation (moves g) (shuffle (moves g)) -> moves g <> [] ->
  1 <= depth <= Z.of_nat fuel ->
  exists m, Engine.getBestMove shuffle fuel depth g = Ret (san m) g /\
            In m (moves g).
Proof.
  intros Hperm Hne Hd.
  pose proof (incl_shuffle shuffle g Hperm) as Hin.
  rewrite (getBestMove_run legal_move undo_move board_grid
             shuffle fuel depth g Hne Hin Hd).
  destruct (or_else_member
              (fst (bestOf (value_at depth) (is_w (turn g)) g
                      (shuffle (moves g)) None
                      (if is_w (turn g) then NInf else PInf)))
              (shuffle (moves g)) (moves g)
              (shuffle_nonempty shuffle g Hperm Hne) Hin) as (m & E & Hm).
  { destruct (bestOf_from (value_at depth) (is_w (turn g)) g
                (shuffle (moves g)) None
                (if is_w (turn g) then NInf else PInf)); auto. }
  exists m. now rewrite E.
Qed.

Lemma getBestMove_fixed_member shuffle (fuel : nat) (g : Game) :
  Permutation (moves g) (shuffle (moves g)) -> moves g <> [] ->
  (3 <= fuel)%nat ->
  exists m, EngineFixed.getBestMove shuffle fuel g = Ret (san m) g /\
            In m (moves g).
Proof.
  intros Hperm Hne Hd.
  pose proof (incl_shuffle shuffle g Hperm) as Hin.
  rewrite (getBestMove_fixed_run legal_move undo_move board_grid
             shuffle fuel g Hne Hin Hd).
  destruct (or_else_member
              (fst (bestOf (value_fixed (is_w (turn g))) (is_w (turn g)) g
                      (shuffle (moves g)) None
                      (if is_w (turn g) then NInf else PInf)))
              (shuffle (moves g)) (moves g)
              (shuffle_nonempty shuffle g Hperm Hne) Hin) as (m & E & Hm).
  { destruct (bestOf_from (value_fixed (is_w (turn g))) (is_w (turn g)) g
                (shuffle (moves g)) None
                (if is_w (turn g) then NInf else PInf)); auto. }
  exists m. now rewrite E.
Qed.

(** Making the move that a choice function returned. *)
Lemma then_move (choose : M Game answer) (g : Game) (m : string) :
  choose g = Ret (san m) g -> In m (moves g) -> m <> "" ->
  (mv <- choose ;;
   match if_move mv with
   | Some m => game_move m ;;; ret (Some m)
   | None => ret None
   end) g = Ret (Some m) (after g m).
Proof.
  intros Hc Hin Hm. unfold bind. rewrite Hc, (if_move_san m Hm).
  unfold game_move. now rewrite (move_after legal_move g m Hin).
Qed.

(** X13. The timer callback of the game loop never throws: for an engine
    player and a position with a legal move, it makes on the copy one of the
    legal moves of the position; with no legal move, or for a human player,
    it leaves the copy alone. *)
Theorem aiTimer_makes_legal_move (p : PlayerType) (random : Q)
    (shuffle : list string -> list string) (fuel : nat) (g : Game) :
  (0 <= random)%Q -> (random < 1)%Q ->
  Permutation (moves g) (shuffle (moves g)) ->
  (forall m, In m (moves g) -> m <> "") ->
  (3 <= fuel)%nat ->
  (p = Human \/ moves g = [] -> aiTimer p random shuffle fuel g = Ret None g)
  /\ (p <> Human -> moves g <> [] ->
      exists m gm,
        aiTimer p random shuffle fuel g = Ret (Some m) gm /\
        In m (moves g) /\ move g m = Some gm).
Proof.
  intros H0 H1 Hperm Hsan Hfuel. split.
  - intros [-> | He]; [reflexivity|].
    assert (Hnull : pickMove p random shuffle fuel g = Ret null g).
    { destruct p; cbn [pickMove]; try reflexivity;
        try exact (proj1 (getBestMove_no_moves shuffle fuel _ g He)).
      unfold Engine.getRandomMove, bind, gets. now rewrite He. }
    unfold aiTimer, bind. now rewrite Hnull.
  - intros Hp Hne.
    assert (Hpick : exists m, pickMove p random shuffle fuel g = Ret (san m) g /\
                              In m (moves g)).
    { destruct p; cbn [pickMove]; [congruence| | | |].
      - now apply getRandomMove_member.
      - apply getBestMove_member; [assumption | assumption | lia].
      - apply getBestMove_member; [assumption | assumption | lia].
      - apply getBestMove_member; [assumption | assumption | lia]. }
    destruct Hpick as (m & Hrun & Hm).
    exists m, (after g m). split; [|split].
    + unfold aiTimer. exact (then_move _ g m Hrun Hm (Hsan m Hm)).
    + exact Hm.
    + exact (move_after legal_move g m Hm).
Qed.

(** X14. [makeAiMove] never throws: when the game is over, or there is no
    legal move, it leaves the copy alone; otherwise it makes on the copy one
    of the legal moves of the position, with either engine behind
    [getBestMove(gameCopy)]. *)
Theorem makeAiMove_makes_legal_move (shuffle : list string -> list string)
    (fuel : nat) (g : Game) :
  Permutation (moves g) (shuffle (moves g)) ->
  (forall m, In m (moves g) -> m <> "") ->
  (3 <= fuel)%nat ->
  (isGameOver g = true ->
   forall getBestMove, makeAiMove getBestMove g = Ret None g)
  /\ (isGameOver g = false -> moves g = [] ->
      makeAiMove (EngineFixed.getBestMove shuffle fuel) g = Ret None g /\
      makeAiMove (Engine.getBestMove_default shuffle fuel) g = Ret None g)
  /\ (isGameOver g = false -> moves g <> [] ->
      (exists m gm,
         makeAiMove (EngineFixed.getBestMove shuffle fuel) g =
         Ret (Some m) gm /\ In m (moves g) /\ move g m = Some gm) /\
      (exists m gm,
         makeAiMove (Engine.getBestMove_default shuffle fuel) g =
         Ret (Some m) gm /\ In m (moves g) /\ move g m = Some gm)).
Proof.
  intros Hperm Hsan Hfuel. split; [|split].
  - intros Ho gb. unfold makeAiMove, bind, gets. now rewrite Ho.
  - intros Ho He.
    destruct (getBestMove_no_moves shuffle fuel 3 g He) as [E1 E2].
    unfold makeAiMove, Engine.getBestMove_default, bind, gets.
    now rewrite Ho, E1, E2.
  - intros Ho Hne. split.
    + destruct (getBestMove_fixed_member shuffle fuel g Hperm Hne Hfuel)
        as (m & Hrun & Hm).
      exists m, (after g m). split; [|split].
      * unfold makeAiMove, bind at 1, gets. rewrite Ho.
        exact (then_move _ g m Hrun Hm (Hsan m Hm)).
      * exact Hm.
      * exact (move_after legal_move g m Hm).
    + destruct (getBestMove_member shuffle fuel 3 g Hperm Hne ltac:(lia))
        as (m & Hrun & Hm).
      exists m, (after g m). split; [|split].
      * unfold makeAiMove, bind at 1, gets. rewrite Ho.
        exact (then_move _ g m Hrun Hm (Hsan m Hm)).
      * exact Hm.
      * exact (move_after legal_move g m Hm).
Qed.

End CallerFacts.

(** ** The two engines play the same move *)

Lemma le_tenfold (a c : number) : le (tenfold a) (tenfold c) = le a c.
Proof.
  destruct a, c; try reflexivity. cbn -[Z.mul]. split_leb; try reflexivity; lia.
Qed.

Lemma lt_tenfold (a c : number) : lt (tenfold a) (tenfold c) = lt a c.
Proof.
  destruct a, c; try reflexivity. cbn -[Z.mul]. split_leb; try reflexivity; lia.
Qed.

Lemma max_tenfold (a c : number) :
  Math_max (tenfold a) (tenfold c) = tenfold (Math_max a c).
Proof.
  destruct a, c; try reflexivity. unfold Math_max; cbn -[Z.mul].
  split_leb; try reflexivity; lia.
Qed.

Lemma min_tenfold (a c : number) :
  Math_min (tenfold a) (tenfold c) = tenfold (Math_min a c).
Proof.
  destruct a, c; try reflexivity. unfold Math_min; cbn -[Z.mul].
  split_leb; try reflexivity; lia.
Qed.

Section Tenfold.
Context {Game : Type} `{Chess Game}.
Variables score1 score2 : Game -> number.
Hypothesis score_tenfold : forall g, score2 g = tenfold (score1 g).

Lemma abMax_tenfold cab1 cab2 (g : Game) (ms : list string) :
  (forall g' a c, cab2 g' (tenfold a) (tenfold c) = tenfold (cab1 g' a c)) ->
  forall M a beta,
    abMax cab2 g ms (tenfold M) (tenfold a) (tenfold beta) =
    tenfold (abMax cab1 g ms M a beta).
Proof.
  intros Hc. induction ms as [|m ms IH]; intros M a beta; cbn [abMax];
    [reflexivity|].
  rewrite Hc, !max_tenfold, le_tenfold.
  destruct (le beta _); [reflexivity | apply IH].
Qed.

Lemma abMin_tenfold cab1 cab2 (g : Game) (ms : list string) :
  (forall g' a c, cab2 g' (tenfold a) (tenfold c) = tenfold (cab1 g' a c)) ->
  forall M a beta,
    abMin cab2 g ms (tenfold M) (tenfold a) (tenfold beta) =
    tenfold (abMin cab1 g ms M a beta).
Proof.
  intros Hc. induction ms as [|m ms IH]; intros M a beta; cbn [abMin];
    [reflexivity|].
  rewrite Hc, !min_tenfold, le_tenfold.
  destruct (le _ a); [reflexivity | apply IH].
Qed.

Lemma alphabeta_tenfold (d : nat) :
  forall g alpha beta mx,
    alphabeta score2 d g (tenfold alpha) (tenfold beta) mx =
    tenfold (alphabeta score1 d g alpha beta mx).
Proof.
  induction d as [|d IH]; intros g alpha beta mx; cbn [alphabeta];
    [apply score_tenfold|].
  destruct (isGameOver g); [apply score_tenfold|].
  destruct mx.
  - change NInf with (tenfold NInf) at 1. apply abMax_tenfold.
    intros; apply IH.
  - change PInf with (tenfold PInf) at 1. apply abMin_tenfold.
    intros; apply IH.
Qed.

Lemma bestOf_tenfold (v1 v2 : Game -> number) (mx : bool) (g : Game)
    (ms : list string) :
  (forall m, In m ms -> v2 (after g m) = tenfold (v1 (after g m))) ->
  forall bm bv,
    fst (bestOf v2 mx g ms bm (tenfold bv)) = fst (bestOf v1 mx g ms bm bv).
Proof.
  induction ms as [|m ms IH]; intros Hv bm bv; cbn [bestOf]; [reflexivity|].
  rewrite (Hv m (or_introl eq_refl)). unfold gt. rewrite !lt_tenfold.
  assert (Hv' : forall m', In m' ms -> v2 (after g m') = tenfold (v1 (after g m')))
    by (intros m' Hm'; apply Hv; now right).
  destruct mx; [destruct (lt bv _) | destruct (lt _ bv)]; now apply IH.
Qed.

End Tenfold.

Section Agree.
Context {Game : Type} `{Chess Game}.
Hypothesis legal_move : forall g m, In m (moves g) -> move g m <> None.
Hypothesis undo_move : forall g m g', move g m = Some g' -> undo g' = g.
Hypothesis board_grid : forall g : Game, grid8x8 (board g).

(** The pieces are of the listed types, each side has as many kings as the
    other, and a move passes the turn. *)
Hypothesis pieces_listed :
  forall g : Game, all_listed Engine.PIECE_VALUES (board g) = true.
Hypothesis kings_balanced :
  forall g : Game, kings_of White (board g) = kings_of Black (board g).
Hypothesis turn_passes :
  forall g m g', move g m = Some g' -> is_w (turn g') = negb (is_w (turn g)).

Lemma score_is_tenfold (g : Game) :
  score_with EngineFixed.evaluateGrid g =
  tenfold (score_with Engine.evaluateGrid g).
Proof.
  rewrite (score_fixed_material board_grid g
             (all_listed_fixed _ (pieces_listed g))).
  rewrite (score_material board_grid g (pieces_listed g)).
  rewrite material_tenfold, (kings_balanced g). cbn [tenfold]. f_equal. lia.
Qed.

(** X15. On positions as [chess.js] has them (listed pieces, one king each, the
    turn passing with every move) the two engine files choose the same move:
    [getBestMove(game, 3)] of the one and [getBestMove(game)] of the other
    return the same answer under the same shuffle. *)
Theorem engines_agree (shuffle : list string -> list string) (fuel : nat)
    (g : Game) :
  Permutation (moves g) (shuffle (moves g)) -> (3 <= fuel)%nat ->
  Engine.getBestMove shuffle fuel 3 g = EngineFixed.getBestMove shuffle fuel g.
Proof.
  intros Hperm Hfuel.
  destruct (moves g) as [|m0 ms0] eqn:Em.
  - destruct (getBestMove_no_moves shuffle fuel 3 g Em) as [E1 E2].
    now rewrite E1, E2.
  - assert (Hne : moves g <> []) by (rewrite Em; discriminate).
    rewrite <- Em in Hperm.
    pose proof (incl_shuffle shuffle g Hperm) as Hin.
    rewrite (getBestMove_run legal_move undo_move board_grid
               shuffle fuel 3 g Hne Hin) by lia.
    rewrite (getBestMove_fixed_run legal_move undo_move board_grid
               shuffle fuel g Hne Hin Hfuel).
    f_equal. f_equal.
    assert (Es : tenfold (if is_w (turn g) then NInf else PInf) =
                 (if is_w (turn g) then NInf else PInf))
      by now destruct (is_w (turn g)).
    assert (Hv : forall m, In m (shuffle (moves g)) ->
               value_fixed (is_w (turn g)) (after g m) =
               tenfold (value_at 3 (after g m))).
    { intros m Hm.
      unfold value_fixed, value_at. change (Z.to_nat (3 - 1)) with 2%nat.
      rewrite (turn_passes g m (after g m)
                 (move_after legal_move g m (Hin m Hm))).
      change NInf with (tenfold NInf) at 1.
      change PInf with (tenfold PInf) at 1.
      apply alphabeta_tenfold, score_is_tenfold. }
    pose proof (bestOf_tenfold (value_at 3) (value_fixed (is_w (turn g)))
                  (is_w (turn g)) g (shuffle (moves g)) Hv None
                  (if is_w (turn g) then NInf else PInf)) as Hb.
    rewrite Es in Hb. now rewrite Hb.
Qed.

End Agree.

(** ** A depth below zero *)

Section Endless.
Context {Game : Type} `{Chess Game}.
Variable evaluateBoard : M Game number.
Hypothesis legal_move : forall g m, In m (moves g) -> move g m <> None.

(** The game is never over and there is always a move. *)
Hypothesis never_over : forall g : Game, isGameOver g = false.
Hypothesis has_move : forall g : Game, moves g <> [].

Lemma minimax_below_zero (fuel : nat) :
  forall depth alpha beta mx g,
    depth < 0 ->
    Search.minimax evaluateBoard fuel depth alpha beta mx g = OutOfFuel.
Proof.
  induction fuel as [|fuel IH]; intros depth alpha beta mx g Hd;
    [reflexivity|].
  cbn [Search.minimax]. unfold bind at 1, gets. rewrite never_over.
  assert (Ez : (depth =? 0) = false) by (apply Z.eqb_neq; lia).
  rewrite Ez. cbn [orb]. unfold bind at 1.
  pose proof (has_move g) as Hne.
  destruct (moves g) as [|m ms] eqn:Em; [congruence|].
  assert (Hm : In m (moves g)) by (rewrite Em; now left).
  pose proof (legal_move g m Hm) as Hlegal.
  destruct mx.
  - cbn [Search.maxLoop]. unfold bind, game_move.
    destruct (move g m) as [g1|]; [|congruence].
    now rewrite IH by lia.
  - cbn [Search.minLoop]. unfold bind, game_move.
    destruct (move g m) as [g1|]; [|congruence].
    now rewrite IH by lia.
Qed.

End Endless.

(** X11. The recursion stops on [depth === 0] or on the end of the game only:
    called with a depth of zero or less, [getBestMove] searches with a
    negative depth, which never meets the test, and on a rules object whose
    game never ends it has no result however deep the recursion may go. *)
Theorem getBestMove_depth_zero_runs_on {Game} `{Chess Game}
    (shuffle : list string -> list string) (g : Game) (depth : Z) :
  (forall g m, In m (moves g) -> move g m <> None) ->
  (forall g : Game, isGameOver g = false) ->
  (forall g : Game, moves g <> []) ->
  Permutation (moves g) (shuffle (moves g)) ->
  depth <= 0 ->
  forall fuel, Engine.getBestMove shuffle fuel depth g = OutOfFuel.
Proof.
  intros Hlegal Hover Hmove Hperm Hd fuel.
  unfold Engine.getBestMove, bind at 1, gets.
  rewrite (length_eqb_0 _ (Hmove g)). unfold bind at 1, bind at 1.
  assert (Hne : shuffle (moves g) <> []).
  { intros E. rewrite E in Hperm.
    apply Permutation_sym, Permutation_nil in Hperm. exact (Hmove g Hperm). }
  destruct (shuffle (moves g)) as [|m ms] eqn:Es; [congruence|].
  assert (Hm : In m (moves g)).
  { apply Permutation_sym in Hperm. apply (Permutation_in m Hperm). now left. }
  cbn [Engine.bestLoop]. unfold bind, game_move, gets.
  pose proof (Hlegal g m Hm) as Hl.
  destruct (move g m) as [g1|]; [|congruence].
  unfold Engine.minimax.
  now rewrite (minimax_below_zero _ Hlegal Hover Hmove) by lia.
Qed.

Lemma loop_never_over grid_for (g : Loop.Game) :
  isGameOver (Chess := Loop.rules grid_for) g = false.
Proof. reflexivity. Qed.

Lemma loop_has_move grid_for (g : Loop.Game) :
  moves (Chess := Loop.rules grid_for) g <> [].
Proof. discriminate. Qed.

Lemma getBestMove_depth_zero_runs_on_witness :
  Engine.getBestMove (H := Loop.cycle) (@rev string) 12 0 Loop.start =
  OutOfFuel.
Proof.
  apply (getBestMove_depth_zero_runs_on (H := Loop.cycle) (@rev string)
           Loop.start 0).
  - apply loop_legal.
  - apply loop_never_over.
  - apply loop_has_move.
  - apply Permutation_rev.
  - apply Z.le_refl.
Defined.

(** ** Where the pieces stand does not count *)

Lemma row_sum_app (f : Piece -> Z) (r1 r2 : list (option Piece)) :
  row_sum f (r1 ++ r2) = row_sum f r1 + row_sum f r2.
Proof.
  induction r1 as [|sq r1 IH]; [reflexivity|].
  unfold row_sum in *. cbn [app fold_right]. destruct sq; lia.
Qed.

Lemma sum_squares_concat (f : Piece -> Z) (grid : Board) :
  sum_squares f grid = row_sum f (List.concat grid).
Proof.
  induction grid as [|r grid IH]; cbn [List.concat]; [reflexivity|].
  rewrite row_sum_app, <- IH. reflexivity.
Qed.

Lemma row_sum_permutation (f : Piece -> Z) (r1 r2 : list (option Piece)) :
  Permutation r1 r2 -> row_sum f r1 = row_sum f r2.
Proof.
  induction 1 as [|sq r1 r2 _ IH|s1 s2 r|r1 r2 r3 _ IH1 _ IH2];
    unfold row_sum in *; cbn [fold_right].
  - reflexivity.
  - now rewrite IH.
  - destruct s1, s2; lia.
  - now rewrite IH1.
Qed.

Lemma every_piece_concat (P : Piece -> bool) (grid : Board) :
  every_piece P grid =
  forallb (fun sq => match sq with Some p => P p | None => true end)
          (List.concat grid).
Proof.
  unfold every_piece. induction grid as [|r grid IH]; cbn [List.concat forallb];
    [reflexivity|].
  now rewrite forallb_app, IH.
Qed.

Lemma forallb_permutation {A} (P : A -> bool) (l1 l2 : list A) :
  Permutation l1 l2 -> forallb P l1 = forallb P l2.
Proof.
  induction 1 as [|x l1 l2 _ IH|x y l|l1 l2 l3 _ IH1 _ IH2]; cbn [forallb].
  - reflexivity.
  - now rewrite IH.
  - now destruct (P x), (P y).
  - now rewrite IH1.
Qed.

(** X3. With pieces of the listed types the score depends on which pieces
    are on the board, not on where they stand: two boards whose squares are
    a rearrangement of one another get the same score. *)
Theorem evaluateBoard_ignores_squares (grid1 grid2 : Board) :
  grid8x8 grid1 -> grid8x8 grid2 ->
  Permutation (List.concat grid1) (List.concat grid2) ->
  (all_listed EngineFixed.PIECE_VALUES grid1 = true ->
   EngineFixed.evaluateGrid grid1 = EngineFixed.evaluateGrid grid2)
  /\ (all_listed Engine.PIECE_VALUES grid1 = true ->
      Engine.evaluateGrid grid1 = Engine.evaluateGrid grid2).
Proof.
  intros H1 H2 Hperm. split.
  - intros Hl.
    assert (Hl2 : all_listed EngineFixed.PIECE_VALUES grid2 = true).
    { unfold all_listed in *. rewrite every_piece_concat in *.
      now rewrite <- (forallb_permutation _ _ _ Hperm). }
    rewrite (evaluateGrid_fixed_material _ H1 Hl),
      (evaluateGrid_fixed_material _ H2 Hl2).
    unfold material. rewrite !sum_squares_concat.
    now rewrite (row_sum_permutation _ _ _ Hperm).
  - intros Hl.
    assert (Hl2 : all_listed Engine.PIECE_VALUES grid2 = true).
    { unfold all_listed in *. rewrite every_piece_concat in *.
      now rewrite <- (forallb_permutation _ _ _ Hperm). }
    rewrite (evaluateGrid_material _ H1 Hl), (evaluateGrid_material _ H2 Hl2).
    unfold material. rewrite !sum_squares_concat.
    now rewrite (row_sum_permutation _ _ _ Hperm).
Qed.

Lemma evaluateBoard_ignores_squares_witness :
  EngineFixed.evaluateGrid (rev lone_king) = EngineFixed.evaluateGrid lone_king /\
  Engine.evaluateGrid (rev lone_king) = Engine.evaluateGrid lone_king.
Proof.
  assert (H8 : grid8x8 (rev lone_king)).
  { split; [reflexivity | repeat constructor]. }
  assert (Hp : Permutation (List.concat (rev lone_king)) (List.concat lone_king)).
  { change (Permutation
              (repeat None 56 ++ Some (mkPiece "k" White) :: repeat None 7)
              (Some (mkPiece "k" White) :: repeat None 56 ++ repeat None 7)).
    apply Permutation_sym, Permutation_middle. }
  destruct (evaluateBoard_ignores_squares (rev lone_king) lone_king H8
              lone_king_grid8x8 Hp) as [E1 E2].
  split; [exact (E1 eq_refl) | exact (E2 eq_refl)].
Defined.

(** ** The further properties on the sample rules objects *)

Lemma toy_names (m : string) : In m (moves Toy.start) -> m <> "".
Proof. cbn. intros [<- | [<- | [<- | []]]]; discriminate. Qed.

Lemma loop_turn_passes grid_for (g : Loop.Game) (m : string) (g' : Loop.Game) :
  move (Chess := Loop.rules grid_for) g m = Some g' ->
  is_w (turn (Chess := Loop.rules grid_for) g') =
  negb (is_w (turn (Chess := Loop.rules grid_for) g)).
Proof.
  cbn. unfold Loop.play. destruct (existsb _ _); [|discriminate].
  intros E; injection E as <-. cbn [Loop.played List.length]. unfold Loop.side.
  rewrite Nat.even_succ, <- Nat.negb_even.
  now destruct (Nat.even (List.length (Loop.played g))).
Qed.

Lemma loop_cycle_balanced (g : Loop.Game) :
  kings_of White (board (Chess := Loop.cycle) g) =
  kings_of Black (board (Chess := Loop.cycle) g).
Proof.
  apply (loop_cycle_cases
           (fun grid => kings_of White grid = kings_of Black grid)).
  repeat constructor.
Qed.

Lemma loop_no_dead_end grid_for (g : Loop.Game) :
  isGameOver (Chess := Loop.rules grid_for) g = false ->
  moves (Chess := Loop.rules grid_for) g <> [].
Proof. intros _. discriminate. Qed.

Lemma loop_shuffle grid_for (g : Loop.Game) :
  Permutation (moves (Chess := Loop.rules grid_for) g)
              (rev (moves (Chess := Loop.rules grid_for) g)).
Proof. apply Permutation_rev. Qed.

Lemma getBestMove_optimal_witness :
  exists m v,
    Engine.getBestMove (@rev string) 3 3 Toy.start = Ret (san m) Toy.start /\
    In m (moves Toy.start) /\
    leads_to 3 3 Toy.start m v /\
    forall m' v', In m' (moves Toy.start) -> leads_to 3 3 Toy.start m' v' ->
      no_worse (is_w (turn Toy.start)) v v' = true.
Proof.
  apply (getBestMove_optimal toy_legal toy_undo toy_board8x8).
  - exact toy_board_listed.
  - exact toy_names.
  - apply toy_shuffle.
  - discriminate.
  - cbn; lia.
Defined.

Lemma getBestMove_first_of_best_witness :
  exists pre m post v,
    rev (moves Toy.start) = pre ++ m :: post /\
    Engine.getBestMove (@rev string) 3 2 Toy.start = Ret (san m) Toy.start /\
    leads_to 3 2 Toy.start m v /\
    forall m' v', In m' pre -> leads_to 3 2 Toy.start m' v' ->
      better (is_w (turn Toy.start)) v v' = true.
Proof.
  apply (getBestMove_first_of_best toy_legal toy_undo toy_board8x8).
  - exact toy_board_listed.
  - exact toy_names.
  - apply toy_shuffle.
  - discriminate.
  - cbn; lia.
Defined.

Lemma getBestMove_fixed_optimal_witness :
  exists pre m post v,
    rev (moves Toy.start) = pre ++ m :: post /\
    EngineFixed.getBestMove (@rev string) 3 Toy.start = Ret (san m) Toy.start /\
    In m (moves Toy.start) /\
    leads_to_fixed 3 Toy.start m v /\
    (forall m' v', In m' (moves Toy.start) -> leads_to_fixed 3 Toy.start m' v' ->
       no_worse (is_w (turn Toy.start)) v v' = true) /\
    (forall m' v', In m' pre -> leads_to_fixed 3 Toy.start m' v' ->
       better (is_w (turn Toy.start)) v v' = true).
Proof.
  apply (getBestMove_fixed_optimal toy_legal toy_undo toy_board8x8).
  - exact toy_board_listed_fixed.
  - exact toy_names.
  - apply toy_shuffle.
  - discriminate.
  - apply Nat.le_refl.
Defined.

Lemma getBestMove_only_move_witness :
  Engine.getBestMove (@rev string) 3 2 toy_forced = Ret (san "Ra1") toy_forced /\
  EngineFixed.getBestMove (@rev string) 3 toy_forced = Ret (san "Ra1") toy_forced.
Proof.
  destruct (getBestMove_only_move toy_legal toy_undo toy_board8x8
              (@rev string) toy_forced "Ra1" 3 eq_refl (toy_shuffle _))
    as [H1 H2].
  split; [apply H1; cbn; lia | apply H2, Nat.le_refl].
Defined.

Lemma getBestMove_NaN_fallback_witness :
  exists m rest,
    rev (moves (Chess := Loop.odd) Loop.start) = m :: rest /\
    Engine.getBestMove (H := Loop.odd) (@rev string) 1 1 Loop.start =
    Ret (san m) Loop.start.
Proof.
  apply (getBestMove_NaN_fallback (H := Loop.odd) (loop_legal _) (loop_undo _)
           loop_odd_grid).
  - apply loop_shuffle.
  - discriminate.
  - cbn; lia.
  - intros m gm [<- | [<- | []]] E; injection E as <-; reflexivity.
Defined.

Lemma minimax_finite_witness :
  (exists v,
     EngineFixed.minimax (H := Loop.cycle) 4 3 NInf PInf true Loop.start =
     Ret v Loop.start /\ within 57600 v) /\
  (exists v,
     Engine.minimax (H := Loop.cycle) 4 3 NInf PInf true Loop.start =
     Ret v Loop.start /\ within 576 v).
Proof.
  destruct (minimax_finite (H := Loop.cycle) (loop_legal _) (loop_undo _)
              loop_cycle_grid (loop_no_dead_end _)
              4 3 Loop.start NInf PInf true) as [H1 H2]; [cbn; lia|].
  split; [exact (H1 (fun g => all_listed_fixed _ (loop_cycle_listed g)))
         | exact (H2 loop_cycle_listed)].
Defined.

Lemma aiTimer_makes_legal_move_witness :
  aiTimer Minimax2 (1 # 2) (@rev string) 3 Toy.stuck = Ret None Toy.stuck /\
  exists m gm,
    aiTimer Minimax2 (1 # 2) (@rev string) 3 Toy.start = Ret (Some m) gm /\
    In m (moves Toy.start) /\ move Toy.start m = Some gm.
Proof.
  split.
  - apply (aiTimer_makes_legal_move toy_legal toy_undo toy_board8x8
             Minimax2 (1 # 2) (@rev string) 3 Toy.stuck);
      try discriminate; try reflexivity; try apply toy_shuffle;
      try apply Nat.le_refl.
    + intros m [].
    + now right.
  - apply (aiTimer_makes_legal_move toy_legal toy_undo toy_board8x8
             Minimax2 (1 # 2) (@rev string) 3 Toy.start);
      try discriminate; try reflexivity; try apply toy_shuffle;
      try apply Nat.le_refl.
    exact toy_names.
Defined.

Lemma makeAiMove_makes_legal_move_witness :
  makeAiMove (EngineFixed.getBestMove (@rev string) 3) Toy.stuck =
  Ret None Toy.stuck /\
  exists m gm,
    makeAiMove (EngineFixed.getBestMove (@rev string) 3) Toy.start =
    Ret (Some m) gm /\
    In m (moves Toy.start) /\ move Toy.start m = Some gm.
Proof.
  split.
  - refine (proj1 (makeAiMove_makes_legal_move toy_legal toy_undo toy_board8x8
                     (@rev string) 3 Toy.stuck (toy_shuffle _) _
                     (Nat.le_refl 3)) eq_refl _).
    intros m [].
  - refine (proj1 (proj2 (proj2
              (makeAiMove_makes_legal_move toy_legal toy_undo toy_board8x8
                 (@rev string) 3 Toy.start (toy_shuffle _) toy_names
                 (Nat.le_refl 3))) eq_refl _)).
    discriminate.
Defined.

Lemma engines_agree_witness :
  Engine.getBestMove (H := Loop.cycle) (@rev string) 3 3 Loop.start =
  EngineFixed.getBestMove (H := Loop.cycle) (@rev string) 3 Loop.start.
Proof.
  apply (engines_agree (H := Loop.cycle) (loop_legal _) (loop_undo _)
           loop_cycle_grid loop_cycle_listed loop_cycle_balanced
           (loop_turn_passes _)).
  - apply loop_shuffle.
  - apply Nat.le_refl.
Defined.

(** ** The engines run on the never-ending rules object *)

Example loop_search :
  Engine.minimax (H := Loop.cycle) 2 1 NInf PInf true Loop.start =
  Ret (Num 4) Loop.start /\
  EngineFixed.minimax (H := Loop.cycle) 2 1 NInf PInf true Loop.start =
  Ret (Num 40) Loop.start /\
  Engine.minimax (H := Loop.odd) 3 2 NInf PInf true Loop.start =
  Ret NaN Loop.start /\
  Engine.getBestMove (H := Loop.odd) (fun l => l) 2 2 Loop.start =
  Ret (san "e4") Loop.start.
Proof. repeat split. Qed.
